(** * retle: exponential backoff retry helper (retle.go)

    A shallow embedding of the package [retle]: the [ExpTimer] state, its
    [NextDuration]/[Sleep] methods and the [Retry] loop, together with the
    properties of the timer arithmetic and of the retry protocol. *)

From Stdlib Require Import ZArith QArith Qround Qpower Qabs List Sorted Bool Lia.
From Stdlib Require Import Floats.SpecFloat.
From Stdlib Require Import Strings.String.
From ITree Require Import ITree.
Import ListNotations.
Import ITreeNotations.
Local Open Scope Z_scope.
Local Open Scope itree_scope.

(** ** Go's [float64] and [int64] *)

(** [float64] values are IEEE 754 binary64 numbers: the Standard Library's
    [spec_float] at precision 53 and maximal exponent 1024. *)
Module Float64.

Definition prec : Z := 53.
Definition emax : Z := 1024.

Definition float64 : Type := spec_float.

(** [float64(i)] for an integer [i]: rounded to the nearest double, ties to
    even. *)
Definition of_int (i : Z) : float64 := binary_normalize prec emax i 0 false.

(** [x * y] on [float64]. *)
Definition mul (x y : float64) : float64 := SFmul prec emax x y.

(** [x <= y] on [float64] (false when either is a NaN). *)
Definition leb (x y : float64) : bool := SFleb x y.

(** The mathematical value of a finite double, cut towards zero to an
    integer; nothing for infinities and NaN. *)
Definition trunc (f : float64) : option Z :=
  match f with
  | S754_zero _ => Some 0
  | S754_finite s m e =>
      Some (cond_Zopp s (match e with
                         | Zneg p => Zpos m / 2 ^ Zpos p
                         | _ => Zpos m * 2 ^ e
                         end))
  | S754_infinity _ | S754_nan => None
  end.

(** The rational number a finite double stands for. *)
Definition to_Q (f : float64) : option Q :=
  match f with
  | S754_zero _ => Some 0%Q
  | S754_finite s m e => Some (inject_Z (cond_Zopp s (Zpos m)) * Qpower 2 e)%Q
  | S754_infinity _ | S754_nan => None
  end.

(** A rational cut towards zero. *)
Definition Qtrunc (q : Q) : Z := if Qle_bool 0 q then Qfloor q else Qceiling q.

(** [f] is finite and stands for the rational [q]. *)
Definition has_value (f : float64) (q : Q) : Prop :=
  match to_Q f with
  | Some q' => (q' == q)%Q
  | None => False
  end.

(** A literal written [n / 2^k] in the source, as the double it denotes. *)
Definition literal (n : Z) (k : Z) : float64 := binary_normalize prec emax n (- k) false.

Definition valid (f : float64) : bool := valid_binary prec emax f.

Definition one : float64 := Eval vm_compute in literal 1 0.
Definition two : float64 := Eval vm_compute in literal 2 0.

End Float64.

Module Int64.

Definition min_int : Z := - 2 ^ 63.
Definition max_int : Z := 2 ^ 63 - 1.

Definition in_range (z : Z) : bool := (min_int <=? z) && (z <=? max_int).

End Int64.

Import Float64.

(** The doubles that [int64] can take: finite, and within range once the
    fraction is cut. *)
Definition representable (f : float64) : bool :=
  match trunc f with
  | Some z => Int64.in_range z
  | None => false
  end.

(** Converting a [float64] that no [int64] can represent (too large, an
    infinity, a NaN) succeeds in Go, with an implementation-dependent result.
    The architecture supplies that result. *)
Class Arch : Type := { unrepresentable : float64 -> Z }.

(** amd64: CVTTSD2SQ answers the "integer indefinite" value. *)
Definition amd64 : Arch := {| unrepresentable := fun _ => Int64.min_int |}.

(** ** [time.Duration] *)

Definition Duration : Type := Z.

Definition Nanosecond : Duration := 1.
Definition Microsecond : Duration := 1000 * Nanosecond.
Definition Millisecond : Duration := 1000 * Microsecond.
Definition Second : Duration := 1000 * Millisecond.

Section Timer.

Context {arch : Arch}.

(** [time.Duration(f)] for [f : float64]: the fraction is discarded. *)
Definition Duration_of_float64 (f : float64) : Duration :=
  match trunc f with
  | Some z => if Int64.in_range z then z else unrepresentable f
  | None => unrepresentable f
  end.

(** [float64(d)] for [d : time.Duration]. *)
Definition float64_of_Duration (d : Duration) : float64 := of_int d.

(** ** The timer *)

Definition DefaultInitialInterval : Duration := 500 * Millisecond.
Definition DefaultMultiplier : float64 := Eval vm_compute in literal 3 1.

Record ExpTimer : Type := mkExpTimer {
  interval : Duration;
  multiplier : float64
}.

Definition NewExpTimer (interval : Duration) (multiplier : float64) : ExpTimer :=
  {| interval := interval; multiplier := multiplier |}.

Definition DefaultExpTimer : ExpTimer :=
  NewExpTimer DefaultInitialInterval DefaultMultiplier.

(** [NextDuration] answers the interval it finds and stores the scaled one:
    the result pairs the returned duration with the timer afterwards. *)
Definition NextDuration (e : ExpTimer) : Duration * ExpTimer :=
  let beforeInterval := e.(interval) in
  let e' := {| interval := Duration_of_float64
                             (mul (float64_of_Duration e.(interval)) e.(multiplier));
               multiplier := e.(multiplier) |} in
  (beforeInterval, e').

(** The durations answered by [n] successive calls, and the timer after
    them. *)
Fixpoint NextDurations (n : nat) (e : ExpTimer) : list Duration * ExpTimer :=
  match n with
  | O => ([], e)
  | S n' => let (d, e1) := NextDuration e in
            let (ds, e2) := NextDurations n' e1 in
            (d :: ds, e2)
  end.

End Timer.

(** ** Errors, the caller's context and the operation *)

(** Go's [error] interface values: [nil], the two errors of package
    [context], and errors made with [errors.New]. *)
Inductive error_value : Type :=
| context_Canceled
| context_DeadlineExceeded
| errors_New (msg : string).

Definition error : Type := option error_value.
Definition nil : error := None.

(** What [Retry] asks of the world around it: calling [retryFunc], the
    non-blocking receive on [ctx.Done()] of the [select] statement, the call
    [ctx.Err()], and [time.Sleep]. *)
Variant retryE : Type -> Type :=
| CallRetryFunc : retryE (bool * error)
| SelectDone : retryE bool
| CtxErr : retryE error
| TimeSleep (d : Duration) : retryE unit.

Section Retry.

Context {arch : Arch}.

(** [Sleep] sleeps for [NextDuration]; it answers the timer afterwards. *)
Definition Sleep (e : ExpTimer) : itree retryE ExpTimer :=
  let (d, e') := NextDuration e in
  ITree.trigger (TimeSleep d) ;;
  Ret e'.

(** One turn of the [for] loop of [Retry]: [inl] goes round again with the
    timer as [Sleep] left it, [inr] returns. *)
Definition Retry_turn (e : ExpTimer) : itree retryE (ExpTimer + ExpTimer * error) :=
  '(isRetry, err) <- ITree.trigger CallRetryFunc ;;
  if negb isRetry then
    Ret (inr (e, err))
  else
    done <- ITree.trigger SelectDone ;;
    if done : bool then
      cerr <- ITree.trigger CtxErr ;;
      Ret (inr (e, cerr))
    else
      e' <- Sleep e ;;
      Ret (inl e').

(** The method [Retry] of [ExpTimer]: the timer it leaves behind and the
    error it returns. *)
Definition ExpTimer_Retry : ExpTimer -> itree retryE (ExpTimer * error) :=
  ITree.iter Retry_turn.

(** The package-level [Retry]. *)
Definition Retry : itree retryE error :=
  let e := DefaultExpTimer in
  ITree.map snd (ExpTimer_Retry e).

End Retry.

(** ** Running a program against an environment *)

(** What happened, in order: each request with the answer it got. *)
Inductive Event : Type :=
| EvCall (r : bool * error)
| EvDone (fired : bool)
| EvErr (err : error)
| EvSleep (d : Duration).

(** The operation and the context may depend on everything that happened
    before (the number of calls made, the time slept, ...). *)
Record Env : Type := mkEnv {
  retryFunc : list Event -> bool * error;
  ctx_Done : list Event -> bool;
  ctx_Err : list Event -> error
}.

Definition answer (env : Env) (h : list Event) {X : Type} (ev : retryE X) : X * Event :=
  match ev in retryE X return X * Event with
  | CallRetryFunc => let r := retryFunc env h in (r, EvCall r)
  | SelectDone => let b := ctx_Done env h in (b, EvDone b)
  | CtxErr => let c := ctx_Err env h in (c, EvErr c)
  | TimeSleep d => (tt, EvSleep d)
  end.

(** [run fuel env h t] performs at most [fuel] steps of [t] after the history
    [h]: the result, when [t] returned within these steps, and the history at
    the end. *)
Fixpoint run {R : Type} (fuel : nat) (env : Env) (h : list Event) (t : itree retryE R)
  : option R * list Event :=
  match fuel with
  | O => (None, h)
  | S n =>
      match observe t with
      | RetF r => (Some r, h)
      | TauF t' => run n env h t'
      | VisF ev k => let (x, evt) := answer env h ev in run n env (h ++ [evt]) (k x)
      end
  end.

(** Reading a history. *)
Definition is_call (ev : Event) : bool := match ev with EvCall _ => true | _ => false end.

Definition calls (h : list Event) : nat := List.length (filter is_call h).

Fixpoint sleeps (h : list Event) : list Duration :=
  match h with
  | [] => []
  | EvSleep d :: h' => d :: sleeps h'
  | _ :: h' => sleeps h'
  end.

(** The attempts and the waits between them, the [select] left out. *)
Inductive Action : Type :=
| Attempt
| Wait (d : Duration).

Fixpoint schedule (h : list Event) : list Action :=
  match h with
  | [] => []
  | EvCall _ :: h' => Attempt :: schedule h'
  | EvSleep d :: h' => Wait d :: schedule h'
  | _ :: h' => schedule h'
  end.

(** [Attempt], then for each duration a [Wait] and one more [Attempt]. *)
Fixpoint attempts_with_waits (ds : list Duration) : list Action :=
  match ds with
  | [] => [Attempt]
  | d :: ds' => Attempt :: Wait d :: attempts_with_waits ds'
  end.

(** Where the loop of [Retry] stands. *)
Inductive Phase : Type :=
| AtCall      (* about to call retryFunc: on entry, and after each sleep *)
| AtSelect    (* retryFunc asked for a retry: about to look at ctx.Done() *)
| AtErr       (* ctx.Done() was closed: about to ask ctx.Err() *)
| AtSleep     (* ctx.Done() was open: about to sleep *)
| Returned.

Definition phase_step (p : Phase) (ev : Event) : option Phase :=
  match p, ev with
  | AtCall, EvCall (true, _) => Some AtSelect
  | AtCall, EvCall (false, _) => Some Returned
  | AtSelect, EvDone true => Some AtErr
  | AtSelect, EvDone false => Some AtSleep
  | AtErr, EvErr _ => Some Returned
  | AtSleep, EvSleep _ => Some AtCall
  | _, _ => None
  end.

Fixpoint phase_after (p : Phase) (h : list Event) : option Phase :=
  match h with
  | [] => Some p
  | ev :: h' => match phase_step p ev with
                | Some q => phase_after q h'
                | None => None
                end
  end.

(** The context is consulted only between attempts: a history obeys this
    when, starting [AtCall], every event is the one its phase allows. *)
Definition only_between_attempts (h : list Event) : bool :=
  match phase_after AtCall h with
  | Some _ => true
  | None => false
  end.

(** Every way a run of [Retry] can go, for any amount of fuel. *)
Inductive Outcome {arch : Arch} (env : Env) (h : list Event) (e : ExpTimer) (fuel : nat) : Prop :=
| out_of_fuel (l : list Event) :
    run fuel env h (ExpTimer_Retry e) = (None, h ++ l) ->
    l = [] \/ (exists r, l = [EvCall r]) \/
    (exists x b, l = [EvCall (true, x); EvDone b]) \/
    (exists x c, l = [EvCall (true, x); EvDone true; EvErr c]) \/
    (exists x, l = [EvCall (true, x); EvDone false; EvSleep (interval e)]) ->
    Outcome env h e fuel
| stopped (err : error) :
    retryFunc env h = (false, err) ->
    run fuel env h (ExpTimer_Retry e) = (Some (e, err), h ++ [EvCall (false, err)]) ->
    Outcome env h e fuel
| cancelled (x : error) :
    retryFunc env h = (true, x) ->
    ctx_Done env (h ++ [EvCall (true, x)]) = true ->
    run fuel env h (ExpTimer_Retry e)
    = (Some (e, ctx_Err env (h ++ [EvCall (true, x); EvDone true])),
       h ++ [EvCall (true, x); EvDone true;
             EvErr (ctx_Err env (h ++ [EvCall (true, x); EvDone true]))]) ->
    Outcome env h e fuel
| again (x : error) (n : nat) :
    fuel = S (S (S (S n))) ->
    retryFunc env h = (true, x) ->
    ctx_Done env (h ++ [EvCall (true, x)]) = false ->
    run fuel env h (ExpTimer_Retry e)
    = run n env (h ++ [EvCall (true, x); EvDone false; EvSleep (interval e)])
          (ExpTimer_Retry (snd (NextDuration e))) ->
    Outcome env h e fuel.

(** Environments used to exercise the statements. *)

(** The operation asks for a retry on its first [n] calls and then stops
    with [err]; the context is never cancelled. *)
Definition env_retry_then_stop (n : nat) (err : error) : Env :=
  {| retryFunc := fun h => if Nat.ltb (calls h) n then (true, nil) else (false, err);
     ctx_Done := fun _ => false;
     ctx_Err := fun _ => nil |}.

(** The context is cancelled from the start; the operation answers [r]. *)
Definition env_cancelled (r : bool * error) : Env :=
  {| retryFunc := fun _ => r;
     ctx_Done := fun _ => true;
     ctx_Err := fun _ => Some context_Canceled |}.

(** The operation never stops asking and nobody cancels. *)
Definition env_always_retry : Env :=
  {| retryFunc := fun _ => (true, nil);
     ctx_Done := fun _ => false;
     ctx_Err := fun _ => nil |}.

Definition sample_error : error := Some (errors_New "sample error"%string).

(** The operation always asks for a retry; the context is found closed, with
    error [why], once the sleeps so far add up to [after]. *)
Definition env_cancel_after (after : Duration) (why : error_value) : Env :=
  {| retryFunc := fun _ => (true, nil);
     ctx_Done := fun h => after <=? fold_right Z.add 0 (sleeps h);
     ctx_Err := fun _ => Some why |}.

(** The operation asks for a retry on every other call, starting with the
    first; the context is never cancelled. *)
Definition env_retry_every_other : Env :=
  {| retryFunc := fun h => (Nat.even (calls h), nil);
     ctx_Done := fun _ => false;
     ctx_Err := fun _ => nil |}.

(** ** Further readings of the timer and of its callers *)

(** Zeros and finite numbers, as opposed to infinities and NaN. *)
Definition is_finite (f : float64) : bool :=
  match f with
  | S754_zero _ | S754_finite _ _ _ => true
  | S754_infinity _ | S754_nan => false
  end.

(** Normal numbers: a full 53-digit mantissa at an exponent of the format. *)
Definition is_normal (f : float64) : bool :=
  match f with
  | S754_finite _ m e =>
      (2 ^ 52 <=? Zpos m) && (Zpos m <? 2 ^ 53) && (-1074 <=? e) && (e <=? 971)
  | _ => false
  end.

(** The next [n] scalings of the interval all fit [int64]. *)
Fixpoint scaling_fits {arch : Arch} (n : nat) (e : ExpTimer) : bool :=
  match n with
  | O => true
  | S n' => representable (mul (float64_of_Duration (interval e)) (multiplier e))
            && scaling_fits n' (snd (NextDuration e))
  end.

Fixpoint strictly_increasing (l : list Z) : bool :=
  match l with
  | x :: ((y :: _) as l') => (x <? y) && strictly_increasing l'
  | _ => true
  end.

(** The regime in which the backoff grows: an interval that is not negative
    and that [float64] holds exactly, and a multiplier that is at least 1. *)
Definition growing (e : ExpTimer) : Prop :=
  0 <= interval e <= Int64.max_int
  /\ trunc (float64_of_Duration (interval e)) = Some (interval e)
  /\ valid (multiplier e) = true
  /\ leb one (multiplier e) = true.

(** A caller that runs [e.Retry(ctx, f)] twice on the same timer [e]. *)
Definition Retry_twice {arch : Arch} (e : ExpTimer)
  : itree retryE (ExpTimer * (error * error)) :=
  '(e1, err1) <- ExpTimer_Retry e ;;
  '(e2, err2) <- ExpTimer_Retry e1 ;;
  Ret (e2, (err1, err2)).

(** A caller that runs the package-level [Retry(ctx, f)] twice. *)
Definition Retry_then_Retry {arch : Arch} : itree retryE (error * error) :=
  err1 <- Retry ;;
  err2 <- Retry ;;
  Ret (err1, err2).

(** ** The spec's words about the timer, to set against the code *)

(** "Afterwards the interval equals the old interval multiplied by the
    multiplier", read in exact arithmetic. *)
Definition scales_exactly {arch : Arch} (e : ExpTimer) : Prop :=
  forall q, has_value (multiplier e) q ->
            (inject_Z (interval (snd (NextDuration e))) == inject_Z (interval e) * q)%Q.

(** "Non-decreasing for multiplier >= 1", with nothing asked of the
    interval. *)
Definition grows_when_multiplier_ge_one {arch : Arch} (e : ExpTimer) : Prop :=
  leb one (multiplier e) = true -> interval e <= interval (snd (NextDuration e)).

(** ** The code at work *)

(** The default timer: 0.5 s, 0.75 s, 1.125 s, 1.6875 s. *)
Example default_durations :
  fst (@NextDurations amd64 4 DefaultExpTimer)
  = [500000000; 750000000; 1125000000; 1687500000].
Proof. vm_compute. reflexivity. Qed.

(** Three retries, then success. *)
Example three_retries :
  run 14 (env_retry_then_stop 3 nil) [] (@ExpTimer_Retry amd64 DefaultExpTimer)
  = (Some ({| interval := 1687500000; multiplier := DefaultMultiplier |}, nil),
     [EvCall (true, nil); EvDone false; EvSleep 500000000;
      EvCall (true, nil); EvDone false; EvSleep 750000000;
      EvCall (true, nil); EvDone false; EvSleep 1125000000;
      EvCall (false, nil)]).
Proof. vm_compute. reflexivity. Qed.

(** Cancelled one second in: the second sleep runs to its end (1.25 s in
    all) before the third attempt and the check that sees it. *)
Example cancelled_after_one_second :
  run 12 (env_cancel_after Second context_Canceled) [] (@Retry amd64)
  = (Some (Some context_Canceled),
     [EvCall (true, nil); EvDone false; EvSleep 500000000;
      EvCall (true, nil); EvDone false; EvSleep 750000000;
      EvCall (true, nil); EvDone true; EvErr (Some context_Canceled)]).
Proof. vm_compute. reflexivity. Qed.

(** ** Facts about histories *)

Lemma calls_app (h l : list Event) : calls (h ++ l) = (calls h + calls l)%nat.
Proof. unfold calls. rewrite filter_app, length_app. reflexivity. Qed.

Lemma sleeps_app (h l : list Event) : sleeps (h ++ l) = sleeps h ++ sleeps l.
Proof.
  induction h as [|ev h IH]; [reflexivity|].
  destruct ev; simpl; rewrite IH; reflexivity.
Qed.

Lemma phase_after_app (p : Phase) (h l : list Event) :
  phase_after p (h ++ l) =
  match phase_after p h with
  | Some q => phase_after q l
  | None => None
  end.
Proof.
  revert p. induction h as [|ev h IH]; intros p; [reflexivity|].
  simpl. destruct (phase_step p ev); [apply IH | reflexivity].
Qed.

(** ** Doubles as rationals *)

Lemma Qtrunc_comp (p q : Q) : (p == q)%Q -> Qtrunc p = Qtrunc q.
Proof.
  intros H. unfold Qtrunc.
  rewrite (Qfloor_comp _ _ H), (Qceiling_comp _ _ H), (Qleb_comp 0%Q 0%Q (Qeq_refl 0%Q) _ _ H).
  reflexivity.
Qed.

Lemma Qtrunc_Z (z : Z) : Qtrunc (inject_Z z) = z.
Proof. unfold Qtrunc. rewrite Qfloor_Z, Qceiling_Z. destruct (Qle_bool 0 (inject_Z z)); reflexivity. Qed.

Lemma Qpower2_nonneg (e : Z) : 0 <= e -> (2 ^ e == inject_Z (2 ^ e))%Q.
Proof. intros He. rewrite Zpower_Qpower by assumption. reflexivity. Qed.

Lemma Qpower2_neg (k : positive) : (2 ^ (Zneg k) == / inject_Z (2 ^ Zpos k))%Q.
Proof.
  change (Zneg k) with (- Zpos k). rewrite Qpower_opp, Qpower2_nonneg by lia. reflexivity.
Qed.

Lemma Qtrunc_div_pos (m : positive) (d : Z) :
  0 < d -> Qtrunc (inject_Z (Zpos m) / inject_Z d) = Zpos m / d.
Proof.
  intros Hd. unfold Qtrunc.
  assert (H : (0 <= inject_Z (Zpos m) / inject_Z d)%Q).
  { apply Qle_shift_div_l. - change 0%Q with (inject_Z 0). rewrite <- Zlt_Qlt. assumption.
    - rewrite Qmult_0_l. change 0%Q with (inject_Z 0). rewrite <- Zle_Qle. lia. }
  apply Qle_bool_iff in H. rewrite H. symmetry. apply Zdiv_Qdiv.
Qed.

Lemma Qtrunc_div_neg (m : positive) (d : Z) :
  0 < d -> Qtrunc (inject_Z (- Zpos m) / inject_Z d) = - (Zpos m / d).
Proof.
  intros Hd. unfold Qtrunc.
  assert (Hd' : (0 < inject_Z d)%Q) by (change 0%Q with (inject_Z 0); rewrite <- Zlt_Qlt; assumption).
  assert (H : ~ (0 <= inject_Z (- Zpos m) / inject_Z d)%Q).
  { intros H. apply (Qmult_le_compat_r _ _ (inject_Z d)) in H; [|apply Qlt_le_weak; assumption].
    rewrite Qmult_0_l in H. unfold Qdiv in H. rewrite <- Qmult_assoc, (Qmult_comm (/ _)), Qmult_inv_r, Qmult_1_r in H.
    - change 0%Q with (inject_Z 0) in H. rewrite <- Zle_Qle in H. lia.
    - intros E. rewrite E in Hd'. apply (Qlt_irrefl 0). assumption. }
  destruct (Qle_bool 0 (inject_Z (- Zpos m) / inject_Z d)) eqn:E.
  - apply Qle_bool_iff in E. contradiction.
  - unfold Qceiling. f_equal.
    rewrite (Zdiv_Qdiv (Zpos m) d). apply Qfloor_comp.
    rewrite inject_Z_opp. unfold Qdiv.
    ring.
Qed.

Lemma Qtrunc_scaled (s : bool) (m : positive) (e : Z) :
  0 <= e ->
  Qtrunc (inject_Z (cond_Zopp s (Zpos m)) * 2 ^ e) = cond_Zopp s (Zpos m * 2 ^ e).
Proof.
  intros He.
  rewrite (Qtrunc_comp _ (inject_Z (cond_Zopp s (Zpos m * 2 ^ e)))).
  - apply Qtrunc_Z.
  - rewrite Qpower2_nonneg by assumption. rewrite <- inject_Z_mult.
    destruct s; cbn [cond_Zopp]; [|reflexivity].
    rewrite <- Z.mul_opp_l. reflexivity.
Qed.

(** Cutting a finite double to an integer cuts the rational it stands for. *)
Lemma trunc_value (f : float64) (q : Q) (z : Z) :
  has_value f q -> trunc f = Some z -> z = Qtrunc q.
Proof.
  unfold has_value.
  destruct f as [s | s | | s m e]; cbn [to_Q trunc]; try contradiction.
  - intros Hq [= <-]. rewrite <- (Qtrunc_comp _ _ Hq). reflexivity.
  - intros Hq Hz. rewrite <- (Qtrunc_comp _ _ Hq). clear Hq.
    destruct e as [|k|k].
    + rewrite Qtrunc_scaled by lia. congruence.
    + rewrite Qtrunc_scaled by lia. congruence.
    + assert (H2 : 0 < 2 ^ Zpos k) by (apply Z.pow_pos_nonneg; lia).
      rewrite (Qtrunc_comp _ (inject_Z (cond_Zopp s (Zpos m)) / inject_Z (2 ^ Zpos k))).
      * destruct s; cbn [cond_Zopp] in *.
        -- rewrite Qtrunc_div_neg by assumption. congruence.
        -- rewrite Qtrunc_div_pos by assumption. congruence.
      * rewrite Qpower2_neg. reflexivity.
Qed.

(** ** Rounding in [float64] *)

Section Rounding.

(** A positive number of [d] binary digits lies in [2^(d-1), 2^d). *)
Lemma digits2_pos_bounds (p : positive) :
  2 ^ (Zpos (digits2_pos p) - 1) <= Zpos p < 2 ^ Zpos (digits2_pos p).
Proof.
  induction p as [p IH | p IH |]; simpl digits2_pos.
  - rewrite Pos2Z.inj_succ, Z.pow_succ_r by lia.
    replace (Z.succ (Zpos (digits2_pos p)) - 1) with (Z.succ (Zpos (digits2_pos p) - 1)) by lia.
    rewrite Z.pow_succ_r by lia. lia.
  - rewrite Pos2Z.inj_succ, Z.pow_succ_r by lia.
    replace (Z.succ (Zpos (digits2_pos p)) - 1) with (Z.succ (Zpos (digits2_pos p) - 1)) by lia.
    rewrite Z.pow_succ_r by lia. lia.
  - simpl. lia.
Qed.

Lemma digits2_pos_unique (p : positive) (d : Z) :
  2 ^ (d - 1) <= Zpos p < 2 ^ d -> Zpos (digits2_pos p) = d.
Proof.
  intros [Hlo Hhi]. pose proof (digits2_pos_bounds p) as [Hlo' Hhi'].
  assert (0 < d).
  { destruct (Z.ltb_spec 0 d); [assumption|].
    destruct (Z.eq_dec d 0) as [-> | ]; [simpl in Hhi; lia|].
    rewrite Z.pow_neg_r in Hhi by lia. lia. }
  destruct (Z.lt_trichotomy (Zpos (digits2_pos p)) d) as [Hlt | [Heq | Hgt]]; [|assumption|].
  - assert (2 ^ Zpos (digits2_pos p) <= 2 ^ (d - 1)) by (apply Z.pow_le_mono_r; lia). lia.
  - assert (2 ^ d <= 2 ^ (Zpos (digits2_pos p) - 1)) by (apply Z.pow_le_mono_r; lia). lia.
Qed.

(** Shifting right: the mantissa is divided, whatever the two guard bits. *)
Lemma shr_1_m (r : shr_record) :
  0 <= shr_m r -> shr_m (shr_1 r) = shr_m r / 2.
Proof.
  destruct r as [m rb sb]. cbn [shr_m]. intros Hm.
  destruct m as [|[p|p|]|p]; cbn [shr_1 shr_m]; try lia.
  - reflexivity.
  - apply (Z.div_unique_pos _ _ _ 1); lia.
  - apply (Z.div_unique_pos _ _ _ 0); lia.
  - reflexivity.
Qed.

Lemma pow2_xI (n : positive) : 2 ^ Zpos n~1 = 2 * (2 ^ Zpos n * 2 ^ Zpos n).
Proof.
  replace (Zpos n~1) with (1 + (Zpos n + Zpos n)) by lia.
  rewrite !Z.pow_add_r by lia. reflexivity.
Qed.

Lemma pow2_xO (n : positive) : 2 ^ Zpos n~0 = 2 ^ Zpos n * 2 ^ Zpos n.
Proof.
  replace (Zpos n~0) with (Zpos n + Zpos n) by lia.
  rewrite !Z.pow_add_r by lia. reflexivity.
Qed.

Lemma iter_shr_1_m (n : positive) :
  forall r, 0 <= shr_m r ->
    shr_m (iter_pos shr_1 n r) = shr_m r / 2 ^ Zpos n.
Proof.
  induction n as [n IH | n IH |]; intros r Hr; simpl iter_pos.
  - assert (H1 : 0 <= shr_m (shr_1 r)) by (rewrite shr_1_m by assumption; apply Z.div_pos; lia).
    assert (H2 : 0 <= shr_m (iter_pos shr_1 n (shr_1 r))).
    { rewrite IH by assumption. apply Z.div_pos; lia. }
    rewrite IH, IH, shr_1_m by assumption.
    rewrite !Z.div_div by lia. rewrite pow2_xI. reflexivity.
  - assert (H2 : 0 <= shr_m (iter_pos shr_1 n r)).
    { rewrite IH by assumption. apply Z.div_pos; lia. }
    rewrite IH, IH by assumption.
    rewrite !Z.div_div by lia. rewrite pow2_xO. reflexivity.
  - rewrite shr_1_m by assumption. reflexivity.
Qed.

(** [shr] by [n >= 0] places divides the mantissa by [2^n]. *)
Lemma shr_m_spec (m e n : Z) :
  0 <= m -> 0 <= n ->
  shr_m (fst (shr (shr_record_of_loc m loc_Exact) e n)) = m / 2 ^ n
  /\ snd (shr (shr_record_of_loc m loc_Exact) e n) = e + n.
Proof.
  intros Hm Hn. destruct n as [|n|n]; simpl; try lia.
  - rewrite Z.div_1_r. split; [reflexivity | lia].
  - split; [|reflexivity]. rewrite iter_shr_1_m by (simpl; assumption). reflexivity.
Qed.

Lemma round_nearest_even_bounds (m : Z) (l : location) :
  m <= round_nearest_even m l <= m + 1.
Proof.
  destruct l as [|[| |]]; simpl; try lia. destruct (Z.even m); lia.
Qed.

Lemma div_pow2_bounds (p : positive) (n : Z) :
  0 <= n -> Zpos (digits2_pos p) = 53 + n ->
  2 ^ 52 <= Zpos p / 2 ^ n < 2 ^ 53.
Proof.
  intros Hn Hd. pose proof (digits2_pos_bounds p) as [Hlo Hhi].
  rewrite Hd in Hlo, Hhi.
  replace (53 + n - 1) with (52 + n) in Hlo by lia.
  rewrite Z.pow_add_r in Hlo, Hhi by lia.
  assert (0 < 2 ^ n) by (apply Z.pow_pos_nonneg; lia).
  split.
  - apply Z.div_le_lower_bound; lia.
  - apply Z.div_lt_upper_bound; lia.
Qed.

(** Rounding a mantissa of at least 53 digits in the normal range: the
    result is a 53-digit mantissa at the expected exponent, no smaller than
    the exact quotient and at most one above it; or the quotient's
    successor was [2^53] and the exponent moved up by one; or the exponent
    is beyond [emax] and the result is an infinity. *)
Lemma binary_round_aux_normal (s : bool) (p : positive) (ex n : Z) :
  0 <= n -> Zpos (digits2_pos p) = 53 + n -> -1074 <= ex + n ->
  (binary_round_aux prec emax s (Zpos p) ex loc_Exact = S754_infinity s /\ 971 <= ex + n)
  \/ exists m',
       2 ^ 52 <= Zpos m' < 2 ^ 53
       /\ ((binary_round_aux prec emax s (Zpos p) ex loc_Exact = S754_finite s m' (ex + n)
            /\ Zpos p / 2 ^ n <= Zpos m' <= Zpos p / 2 ^ n + 1)
           \/ (binary_round_aux prec emax s (Zpos p) ex loc_Exact
               = S754_finite s m' (ex + n + 1)
               /\ Zpos m' = 2 ^ 52 /\ Zpos p / 2 ^ n + 1 = 2 ^ 53)).
Proof.
  intros Hn Hd He.
  pose proof (div_pow2_bounds p n Hn Hd) as Hq.
  unfold binary_round_aux, shr_fexp.
  assert (Hs1 : fexp prec emax (Zdigits2 (Zpos p) + ex) - ex = n).
  { unfold fexp, emin, prec, emax. cbn [Zdigits2]. rewrite Hd. lia. }
  rewrite Hs1.
  destruct (shr_m_spec (Zpos p) ex n) as [Hm1 He1]; [lia | assumption |].
  destruct (shr (shr_record_of_loc (Zpos p) loc_Exact) ex n) as [mrs' e'].
  cbn [fst snd] in Hm1, He1. subst e'.
  pose proof (round_nearest_even_bounds (shr_m mrs') (loc_of_shr_record mrs')) as Hr.
  remember (round_nearest_even (shr_m mrs') (loc_of_shr_record mrs')) as m1 eqn:Em1.
  rewrite Hm1 in Hr. clear Em1 Hm1 mrs'.
  destruct m1 as [|pm|pm]; try lia.
  destruct (Z.ltb_spec (Zpos pm) (2 ^ 53)) as [Hlt | Hge].
  - assert (Hd1 : Zpos (digits2_pos pm) = 53) by (apply digits2_pos_unique; lia).
    assert (Hs2 : fexp prec emax (Zdigits2 (Zpos pm) + (ex + n)) - (ex + n) = 0).
    { unfold fexp, emin, prec, emax. cbn [Zdigits2]. rewrite Hd1. lia. }
    rewrite Hs2. cbn [shr shr_record_of_loc shr_m].
    destruct (Z.leb_spec (ex + n) (emax - prec)) as [Hle | Hgt];
      [right | left; split; [reflexivity | unfold emax, prec in Hgt; lia]].
    exists pm. split; [lia|]. left. split; [reflexivity | lia].
  - assert (Hpm : Zpos pm = 2 ^ 53) by lia.
    assert (Hd1 : Zpos (digits2_pos pm) = 54) by (apply digits2_pos_unique; rewrite Hpm; lia).
    assert (Hs2 : fexp prec emax (Zdigits2 (Zpos pm) + (ex + n)) - (ex + n) = 1).
    { unfold fexp, emin, prec, emax. cbn [Zdigits2]. rewrite Hd1. lia. }
    rewrite Hs2.
    destruct (shr_m_spec (Zpos pm) (ex + n) 1) as [Hm2 He2]; [lia | lia |].
    destruct (shr (shr_record_of_loc (Zpos pm) loc_Exact) (ex + n) 1) as [mrs2 e2].
    cbn [fst snd] in Hm2, He2. subst e2. rewrite Hm2, Hpm.
    change (2 ^ 53 / 2 ^ 1) with (Zpos (2 ^ 52)).
    destruct (Z.leb_spec (ex + n + 1) (emax - prec)) as [Hle | Hgt];
      [right | left; split; [reflexivity | unfold emax, prec in Hgt; lia]].
    exists (2 ^ 52)%positive. split; [lia|]. right. split; [reflexivity|]. split; [reflexivity | lia].
Qed.

Lemma binary_round_aux_53_shift (p : positive) (ex : Z) :
  Zpos (digits2_pos p) = 53 -> -1074 <= ex ->
  fexp prec emax (Zdigits2 (Zpos p) + ex) - ex = 0.
Proof.
  intros Hd He. unfold fexp, emin, prec, emax. cbn [Zdigits2]. rewrite Hd. lia.
Qed.

(** A mantissa of exactly 53 digits at an exponent in range is kept. *)
Lemma binary_round_aux_53 (s : bool) (p : positive) (ex : Z) :
  Zpos (digits2_pos p) = 53 -> -1074 <= ex <= 971 ->
  binary_round_aux prec emax s (Zpos p) ex loc_Exact = S754_finite s p ex.
Proof.
  intros Hd He. unfold binary_round_aux, shr_fexp.
  assert (Hs : fexp prec emax (Zdigits2 (Zpos p) + ex) - ex = 0).
  { unfold fexp, emin, prec, emax. cbn [Zdigits2]. rewrite Hd. lia. }
  rewrite Hs. cbn [shr shr_record_of_loc shr_m loc_of_shr_record round_nearest_even].
  rewrite Hs. cbn [shr shr_record_of_loc shr_m].
  destruct (Z.leb_spec ex (emax - prec)) as [Hle | Hgt];
    [reflexivity | unfold emax, prec in Hgt; lia].
Qed.

Lemma iter_xO_value (p k : positive) : Zpos (Pos.iter xO p k) = Zpos p * 2 ^ Zpos k.
Proof.
  pose proof (shift_pos_correct k p) as H. unfold shift_pos in H.
  rewrite H. rewrite Z.mul_comm. reflexivity.
Qed.

(** [float64(i)] for an integer [i] of magnitude [p > 0] and sign [s]: a
    normal number; exact when [p] has at most 53 digits. *)
Lemma binary_round_int (s : bool) (p : positive) :
  Zpos p < 2 ^ 64 ->
  exists mi ei,
    binary_round prec emax s p 0 = S754_finite s mi ei
    /\ 2 ^ 52 <= Zpos mi < 2 ^ 53
    /\ -52 <= ei <= 12
    /\ (ei <= 0 -> Zpos mi = Zpos p * 2 ^ (- ei))
    /\ (Zpos p < 2 ^ 53 -> ei <= 0).
Proof.
  intros Hp. pose proof (digits2_pos_bounds p) as [Hlo Hhi].
  set (d := Zpos (digits2_pos p)) in *.
  assert (Hd0 : 0 < d) by (unfold d; lia).
  assert (Hd64 : d <= 64).
  { destruct (Z.leb_spec d 64); [assumption|].
    assert (2 ^ 64 <= 2 ^ (d - 1)) by (apply Z.pow_le_mono_r; lia). lia. }
  unfold binary_round.
  assert (Hf : fexp prec emax (Zpos (digits2_pos p) + 0) = d - 53).
  { unfold fexp, emin, prec, emax. fold d. lia. }
  rewrite Hf. unfold shl_align.
  destruct (d - 53 - 0) as [|k|k] eqn:Hk.
  - rewrite (binary_round_aux_53 s p 0) by (fold d; lia).
    exists p, 0. fold d in Hlo, Hhi. replace d with 53 in * by lia.
    repeat split; try lia.
  - destruct (binary_round_aux_normal s p 0 (Zpos k)) as [[_ Hbig] | (m' & Hm' & [[-> _] | (-> & _)])];
      [lia | fold d; lia | lia | lia | |].
    + assert (2 ^ 53 <= 2 ^ (d - 1)) by (apply Z.pow_le_mono_r; lia).
      exists m', (0 + Zpos k). repeat split; lia.
    + assert (2 ^ 53 <= 2 ^ (d - 1)) by (apply Z.pow_le_mono_r; lia).
      exists m', (0 + Zpos k + 1). repeat split; lia.
  - assert (Hv : Zpos (Pos.iter xO p k) = Zpos p * 2 ^ Zpos k) by apply iter_xO_value.
    assert (Hpk : 2 ^ (d - 1) * 2 ^ Zpos k = 2 ^ 52).
    { rewrite <- Z.pow_add_r by lia. f_equal; lia. }
    assert (Hpk' : 2 ^ d * 2 ^ Zpos k = 2 ^ 53).
    { rewrite <- Z.pow_add_r by lia. f_equal; lia. }
    assert (H2k : 0 < 2 ^ Zpos k) by (apply Z.pow_pos_nonneg; lia).
    assert (Hb : 2 ^ 52 <= Zpos (Pos.iter xO p k) < 2 ^ 53).
    { rewrite Hv. split; nia. }
    rewrite (binary_round_aux_53 s (Pos.iter xO p k) (d - 53));
      [| apply digits2_pos_unique; lia | lia].
    exists (Pos.iter xO p k), (d - 53). repeat split; try lia.
    intros _. rewrite Hv. f_equal. f_equal. lia.
Qed.

(** Shifting out bits that are all zero loses nothing. *)
Lemma shr_1_exact (m : Z) :
  0 <= m -> (2 | m) ->
  shr_1 {| shr_m := m; shr_r := false; shr_s := false |}
  = {| shr_m := m / 2; shr_r := false; shr_s := false |}.
Proof.
  intros Hm [c Hc]. destruct m as [|[q|q|]|q]; cbn [shr_1 orb]; try lia.
  - reflexivity.
  - f_equal. apply (Z.div_unique_pos _ _ _ 0); lia.
Qed.

Lemma divide_div (a b m : Z) : 0 < a -> (a * b | m) -> (b | m / a).
Proof.
  intros Ha [c Hc]. exists c. subst m.
  replace (c * (a * b)) with (c * b * a) by ring.
  apply Z.div_mul. lia.
Qed.

Lemma iter_shr_1_exact (n : positive) :
  forall m, 0 <= m -> (2 ^ Zpos n | m) ->
    iter_pos shr_1 n {| shr_m := m; shr_r := false; shr_s := false |}
    = {| shr_m := m / 2 ^ Zpos n; shr_r := false; shr_s := false |}.
Proof.
  assert (Hpos : forall k : positive, 0 < 2 ^ Zpos k) by (intros k; apply Z.pow_pos_nonneg; lia).
  induction n as [n IH | n IH |]; intros m Hm Hdiv; cbn [iter_pos].
  - rewrite pow2_xI in *. pose proof (Hpos n) as Hn.
    rewrite shr_1_exact; [| assumption | destruct Hdiv as [c ->]; exists (c * (2 ^ Zpos n * 2 ^ Zpos n)); ring].
    assert (H1 : (2 ^ Zpos n * 2 ^ Zpos n | m / 2)) by (apply divide_div; [lia | assumption]).
    rewrite IH; [| apply Z.div_pos; lia | destruct H1 as [c ->]; exists (c * 2 ^ Zpos n); ring].
    rewrite IH; [| apply Z.div_pos; [apply Z.div_pos|]; lia | apply divide_div; assumption].
    rewrite !Z.div_div by lia. reflexivity.
  - rewrite pow2_xO in *. pose proof (Hpos n) as Hn.
    rewrite IH; [| assumption | destruct Hdiv as [c ->]; exists (c * 2 ^ Zpos n); ring].
    rewrite IH; [| apply Z.div_pos; lia | apply divide_div; assumption].
    rewrite !Z.div_div by lia. reflexivity.
  - apply shr_1_exact; assumption.
Qed.

Lemma shr_exact (m e n : Z) :
  0 <= m -> 0 <= n -> (2 ^ n | m) ->
  shr (shr_record_of_loc m loc_Exact) e n
  = ({| shr_m := m / 2 ^ n; shr_r := false; shr_s := false |}, e + n).
Proof.
  intros Hm Hn Hdiv. destruct n as [|n|n]; cbn [shr shr_record_of_loc]; try lia.
  - rewrite Z.div_1_r, Z.add_0_r. reflexivity.
  - rewrite iter_shr_1_exact by assumption. reflexivity.
Qed.

(** A mantissa whose digits beyond the 53rd are all zero is rounded to
    itself, shifted. *)
Lemma binary_round_aux_exact (s : bool) (p : positive) (ex n : Z) :
  0 <= n -> Zpos (digits2_pos p) = 53 + n -> (2 ^ n | Zpos p) ->
  -1074 <= ex + n <= 971 ->
  binary_round_aux prec emax s (Zpos p) ex loc_Exact
  = S754_finite s (Z.to_pos (Zpos p / 2 ^ n)) (ex + n).
Proof.
  intros Hn Hd Hdiv He.
  pose proof (div_pow2_bounds p n Hn Hd) as Hq.
  unfold binary_round_aux, shr_fexp.
  assert (Hs1 : fexp prec emax (Zdigits2 (Zpos p) + ex) - ex = n).
  { unfold fexp, emin, prec, emax. cbn [Zdigits2]. rewrite Hd. lia. }
  rewrite Hs1, shr_exact by (assumption || lia).
  cbn [shr_m loc_of_shr_record round_nearest_even].
  destruct (Zpos p / 2 ^ n) as [|q|q] eqn:Eq; try lia.
  rewrite (binary_round_aux_53_shift q (ex + n)); [| apply digits2_pos_unique; lia | lia].
  cbn [shr shr_record_of_loc shr_m Z.to_pos].
  destruct (Z.leb_spec (ex + n) (emax - prec)) as [Hle | Hgt];
    [reflexivity | unfold emax, prec in Hgt; lia].
Qed.

End Rounding.

(** ** One turn of the loop, step by step *)

Section RetrySteps.

Context {arch : Arch}.
Variable env : Env.

Lemma run_S {R : Type} (n : nat) (h : list Event) (t : itree retryE R) :
  run (S n) env h t
  = match observe t with
    | RetF r => (Some r, h)
    | TauF t' => run n env h t'
    | VisF ev k => let (x, evt) := answer env h ev in run n env (h ++ [evt]) (k x)
    end.
Proof. reflexivity. Qed.

Lemma observe_map {A B : Type} (f : A -> B) (t : itree retryE A) :
  observe (ITree.map f t)
  = observe (match observe t with
             | RetF r => Ret (f r)
             | TauF t' => Tau (ITree.map f t')
             | VisF ev k => Vis ev (fun x => ITree.map f (k x))
             end).
Proof. reflexivity. Qed.

Lemma run_map {A B : Type} (f : A -> B) (fuel : nat) (h : list Event) (t : itree retryE A) :
  run fuel env h (ITree.map f t)
  = (option_map f (fst (run fuel env h t)), snd (run fuel env h t)).
Proof.
  revert h t. induction fuel as [|n IH]; intros h t; [reflexivity|].
  rewrite !run_S, observe_map.
  destruct (observe t) as [r | t' | X ev k]; cbn.
  - reflexivity.
  - apply IH.
  - destruct (answer env h ev) as [x evt]. apply IH.
Qed.

Lemma run_stop (h : list Event) (e : ExpTimer) (err : error) (n : nat) :
  retryFunc env h = (false, err) ->
  run (S (S n)) env h (ExpTimer_Retry e) = (Some (e, err), h ++ [EvCall (false, err)]).
Proof. intros H. cbn. rewrite H. reflexivity. Qed.

Lemma run_cancel (h : list Event) (e : ExpTimer) (x : error) (n : nat) :
  retryFunc env h = (true, x) ->
  ctx_Done env (h ++ [EvCall (true, x)]) = true ->
  run (S (S (S (S n)))) env h (ExpTimer_Retry e)
  = (Some (e, ctx_Err env (h ++ [EvCall (true, x); EvDone true])),
     h ++ [EvCall (true, x); EvDone true;
           EvErr (ctx_Err env (h ++ [EvCall (true, x); EvDone true]))]).
Proof.
  intros H1 H2. cbn. rewrite H1. cbn. rewrite H2. cbn.
  rewrite <- !app_assoc. reflexivity.
Qed.

Lemma run_again (h : list Event) (e : ExpTimer) (x : error) (n : nat) :
  retryFunc env h = (true, x) ->
  ctx_Done env (h ++ [EvCall (true, x)]) = false ->
  run (S (S (S (S n)))) env h (ExpTimer_Retry e)
  = run n env (h ++ [EvCall (true, x); EvDone false; EvSleep (interval e)])
        (ExpTimer_Retry (snd (NextDuration e))).
Proof.
  intros H1 H2. cbn. rewrite H1. cbn. rewrite H2. cbn.
  rewrite <- !app_assoc. reflexivity.
Qed.

Lemma run_cases (h : list Event) (e : ExpTimer) (fuel : nat) : Outcome env h e fuel.
Proof.
  destruct fuel as [|n1].
  { apply (out_of_fuel _ _ _ _ []); [rewrite app_nil_r; reflexivity | auto]. }
  destruct (retryFunc env h) as [[|] x] eqn:Hr.
  2:{ destruct n1 as [|n2].
      - apply (out_of_fuel _ _ _ _ [EvCall (false, x)]); [cbn; rewrite Hr; reflexivity | eauto].
      - apply (stopped _ _ _ _ x); [assumption | apply run_stop; assumption]. }
  destruct n1 as [|n2].
  { apply (out_of_fuel _ _ _ _ [EvCall (true, x)]); [cbn; rewrite Hr; reflexivity | eauto]. }
  destruct (ctx_Done env (h ++ [EvCall (true, x)])) eqn:Hd.
  - destruct n2 as [|n3].
    { apply (out_of_fuel _ _ _ _ [EvCall (true, x); EvDone true]).
      - cbn. rewrite Hr. cbn. rewrite Hd. cbn. rewrite <- app_assoc. reflexivity.
      - right; right; left; eauto. }
    destruct n3 as [|n4].
    { apply (out_of_fuel _ _ _ _ [EvCall (true, x); EvDone true;
                                EvErr (ctx_Err env (h ++ [EvCall (true, x); EvDone true]))]).
      - cbn. rewrite Hr. cbn. rewrite Hd. cbn. rewrite <- !app_assoc. reflexivity.
      - right; right; right; left; eauto. }
    apply (cancelled _ _ _ _ x); [assumption | assumption | apply run_cancel; assumption].
  - destruct n2 as [|n3].
    { apply (out_of_fuel _ _ _ _ [EvCall (true, x); EvDone false]).
      - cbn. rewrite Hr. cbn. rewrite Hd. cbn. rewrite <- app_assoc. reflexivity.
      - right; right; left; eauto. }
    destruct n3 as [|n4].
    { apply (out_of_fuel _ _ _ _ [EvCall (true, x); EvDone false; EvSleep (interval e)]).
      - cbn. rewrite Hr. cbn. rewrite Hd. cbn. rewrite <- !app_assoc. reflexivity.
      - right; right; right; right; eauto. }
    apply (again _ _ _ _ x n4); [reflexivity | assumption | assumption | apply run_again; assumption].
Qed.

End RetrySteps.

(** ** The retry protocol *)

Section RetryProtocol.

Context {arch : Arch}.
Variable env : Env.

Lemma NextDurations_S (n : nat) (e : ExpTimer) :
  NextDurations (S n) e
  = (interval e :: fst (NextDurations n (snd (NextDuration e))),
     snd (NextDurations n (snd (NextDuration e)))).
Proof.
  simpl. destruct (NextDurations n _) as [ds e2]. reflexivity.
Qed.

Lemma NextDurations_multiplier (n : nat) (e : ExpTimer) :
  multiplier (snd (NextDurations n e)) = multiplier e.
Proof.
  revert e. induction n as [|n IH]; intros e; [reflexivity|].
  rewrite NextDurations_S. cbn [snd]. rewrite IH. reflexivity.
Qed.

(** While the operation keeps asking and nobody cancels, [m] more rounds
    are made, each with its sleep, before the call that stops. *)
Lemma run_rounds (N : nat) (err : error) :
  (forall h, (calls h < N)%nat -> fst (retryFunc env h) = true) ->
  (forall h, calls h = N -> retryFunc env h = (false, err)) ->
  (forall h, ctx_Done env h = false) ->
  forall (m : nat) (h : list Event) (e : ExpTimer) (fuel : nat),
    (calls h + m = N)%nat ->
    (4 * m + 2 <= fuel)%nat ->
    exists l,
      run fuel env h (ExpTimer_Retry e) = (Some (snd (NextDurations m e), err), h ++ l)
      /\ calls l = S m
      /\ sleeps l = fst (NextDurations m e)
      /\ schedule l = attempts_with_waits (fst (NextDurations m e)).
Proof.
  intros Htrue Hstop Hopen.
  induction m as [|m IH]; intros h e fuel Hc Hf.
  - exists [EvCall (false, err)].
    destruct fuel as [|[|n]]; try lia.
    rewrite (run_stop env h e err n) by (apply Hstop; lia).
    repeat split; reflexivity.
  - destruct fuel as [|[|[|[|n]]]]; try lia.
    assert (Ht : fst (retryFunc env h) = true) by (apply Htrue; lia).
    destruct (retryFunc env h) as [b x] eqn:Hr. simpl in Ht. subst b.
    rewrite (run_again env h e x n Hr (Hopen _)).
    destruct (IH (h ++ [EvCall (true, x); EvDone false; EvSleep (interval e)])
                 (snd (NextDuration e)) n) as (l & Hrun & Hcalls & Hsleeps & Hsched).
    { rewrite calls_app. simpl. unfold calls in *. simpl. lia. }
    { lia. }
    exists ([EvCall (true, x); EvDone false; EvSleep (interval e)] ++ l).
    rewrite Hrun, <- app_assoc, NextDurations_S. cbn [fst snd]. repeat split.
    + rewrite calls_app, Hcalls. reflexivity.
    + simpl. rewrite Hsleeps. reflexivity.
    + simpl. rewrite Hsched. reflexivity.
Qed.

(** The phase reached and the error returned, from any turn of the loop. *)
Lemma run_phase (fuel : nat) :
  forall (h : list Event) (e : ExpTimer),
    phase_after AtCall h = Some AtCall ->
    exists p,
      phase_after AtCall (snd (run fuel env h (ExpTimer_Retry e))) = Some p
      /\ forall e' err,
          fst (run fuel env h (ExpTimer_Retry e)) = Some (e', err) ->
          (exists pre, snd (run fuel env h (ExpTimer_Retry e)) = pre ++ [EvCall (false, err)])
          \/ (exists pre x, snd (run fuel env h (ExpTimer_Retry e))
                            = pre ++ [EvCall (true, x); EvDone true; EvErr err]).
Proof.
  induction fuel as [fuel IH] using lt_wf_ind. intros h e Hh.
  destruct (run_cases env h e fuel) as [l Hrun Hl | err Hr Hrun | x Hr Hd Hrun | x n Hn Hr Hd Hrun].
  - rewrite Hrun. simpl. rewrite phase_after_app, Hh.
    destruct Hl as [-> | [[[[|] x] ->] | [(x & [|] & ->) | [(x & c & ->) | (x & ->)]]]];
      simpl; eexists; (split; [reflexivity | intros ? ? [=]]).
  - rewrite Hrun. simpl. rewrite phase_after_app, Hh. simpl.
    eexists; split; [reflexivity|]. intros e' err' [= _ <-]. left. eauto.
  - rewrite Hrun. simpl. rewrite phase_after_app, Hh. simpl.
    eexists; split; [reflexivity|]. intros e' err' [= _ <-]. right.
    exists h, x. reflexivity.
  - rewrite Hrun. apply IH; [lia|].
    rewrite phase_after_app, Hh. reflexivity.
Qed.

(** The timer that [Retry] leaves behind is the one it was given, advanced
    by [NextDuration] once per sleep. *)
Lemma run_timer (fuel : nat) :
  forall (h : list Event) (e e' : ExpTimer) (err : error),
    fst (run fuel env h (ExpTimer_Retry e)) = Some (e', err) ->
    exists n, e' = snd (NextDurations n e).
Proof.
  induction fuel as [fuel IH] using lt_wf_ind. intros h e e' err.
  destruct (run_cases env h e fuel) as [l Hrun Hl | err0 Hr Hrun | x Hr Hd Hrun | x n Hn Hr Hd Hrun];
    rewrite Hrun; simpl.
  - intros [=].
  - intros [= <- _]. exists 0%nat. reflexivity.
  - intros [= <- _]. exists 0%nat. reflexivity.
  - intros H. apply IH in H; [|lia]. destruct H as [k ->].
    exists (S k). rewrite NextDurations_S. reflexivity.
Qed.

(** What stands right before the last event of an accepted history. *)
Lemma phase_after_snoc (p0 q : Phase) (h : list Event) (ev : Event) :
  phase_after p0 (h ++ [ev]) = Some q ->
  exists q', phase_after p0 h = Some q' /\ phase_step q' ev = Some q.
Proof.
  rewrite phase_after_app. destruct (phase_after p0 h) as [q'|]; [|discriminate].
  simpl. destruct (phase_step q' ev) as [q''|] eqn:Hs; [|discriminate].
  intros [= <-]. eauto.
Qed.

Lemma phase_after_last (p0 q : Phase) (h : list Event) :
  phase_after p0 h = Some q ->
  (h = [] /\ q = p0)
  \/ exists h' ev q', h = h' ++ [ev] /\ phase_after p0 h' = Some q' /\ phase_step q' ev = Some q.
Proof.
  destruct h as [|ev0 h0] using rev_ind; intros H.
  - left. simpl in H. inversion H. auto.
  - right. apply phase_after_snoc in H. destruct H as (q' & H1 & H2). eauto 6.
Qed.

Lemma phase_after_prefix (p0 : Phase) (pre post : list Event) :
  phase_after p0 (pre ++ post) <> None ->
  exists q, phase_after p0 pre = Some q /\ phase_after q post <> None.
Proof.
  rewrite phase_after_app. destruct (phase_after p0 pre) as [q|]; [eauto | congruence].
Qed.

End RetryProtocol.

Section RetryProperties.

Context {arch : Arch}.

(** C1: when the operation asks for a retry on its first [N] calls and
    answers [(false, err)] on call [N+1], and the context is never
    cancelled, [ExpTimer.Retry] returns [err] after exactly [N+1] calls of
    the operation and exactly [N] sleeps, one between each two calls, whose
    durations are the first [N] values of [NextDuration] for the timer. *)
Theorem Retry_stops_after_N_retries (N : nat) (env : Env) (e : ExpTimer) (err : error) :
  (forall h, (calls h < N)%nat -> fst (retryFunc env h) = true) ->
  (forall h, calls h = N -> retryFunc env h = (false, err)) ->
  (forall h, ctx_Done env h = false) ->
  forall fuel, (4 * N + 2 <= fuel)%nat ->
  exists tr,
    run fuel env [] (ExpTimer_Retry e) = (Some (snd (NextDurations N e), err), tr)
    /\ calls tr = S N
    /\ sleeps tr = fst (NextDurations N e)
    /\ List.length (sleeps tr) = N
    /\ schedule tr = attempts_with_waits (fst (NextDurations N e)).
Proof.
  intros Htrue Hstop Hopen fuel Hf.
  destruct (run_rounds env N err Htrue Hstop Hopen N [] e fuel) as (l & Hrun & Hc & Hs & Hsch);
    [reflexivity | assumption |].
  exists l. simpl in Hrun. repeat split; try assumption.
  rewrite Hs. clear. revert e. induction N as [|n IH]; intros e; [reflexivity|].
  rewrite NextDurations_S. simpl. rewrite IH. reflexivity.
Qed.

(** C3: at any turn of the loop, when the operation asks for a retry and
    the context is found cancelled at the check that follows, [Retry]
    returns the context's error at once: no sleep and no further call. *)
Theorem Retry_cancelled_returns_context_error
    (env : Env) (h : list Event) (e : ExpTimer) (x : error) (fuel : nat) :
  retryFunc env h = (true, x) ->
  ctx_Done env (h ++ [EvCall (true, x)]) = true ->
  (4 <= fuel)%nat ->
  let c := ctx_Err env (h ++ [EvCall (true, x); EvDone true]) in
  run fuel env h (ExpTimer_Retry e)
  = (Some (e, c), h ++ [EvCall (true, x); EvDone true; EvErr c])
  /\ sleeps (snd (run fuel env h (ExpTimer_Retry e))) = sleeps h
  /\ calls (snd (run fuel env h (ExpTimer_Retry e))) = S (calls h).
Proof.
  intros Hr Hd Hf c. destruct fuel as [|[|[|[|n]]]]; try lia.
  rewrite (run_cancel env h e x n Hr Hd). fold c. simpl snd.
  rewrite sleeps_app, calls_app. simpl. rewrite app_nil_r.
  repeat split. unfold calls. simpl. lia.
Qed.

(** C4: at any turn of the loop, when the operation answers [(false, err)],
    [Retry] returns on that call, and returns [err] itself, [nil] or not. *)
Theorem Retry_returns_operation_error
    (env : Env) (h : list Event) (e : ExpTimer) (err : error) (fuel : nat) :
  retryFunc env h = (false, err) ->
  (2 <= fuel)%nat ->
  run fuel env h (ExpTimer_Retry e) = (Some (e, err), h ++ [EvCall (false, err)]).
Proof.
  intros Hr Hf. destruct fuel as [|[|n]]; try lia.
  apply run_stop. assumption.
Qed.

(** C7: in every run of [Retry], complete or not, the context is consulted
    only right after a call of the operation that asked for a retry; its
    error is fetched only right after the context was found cancelled
    there, and nothing follows; a sleep follows only a check that found the
    context open, and only a call of the operation follows a sleep; the
    first event is a call of the operation. The error returned is the one
    of the operation's last call or the one fetched at that check. *)
Theorem Retry_consults_context_only_between_attempts
    (env : Env) (e : ExpTimer) (fuel : nat) :
  let res := fst (run fuel env [] (ExpTimer_Retry e)) in
  let tr := snd (run fuel env [] (ExpTimer_Retry e)) in
  only_between_attempts tr = true
  /\ (forall pre b post, tr = pre ++ EvDone b :: post ->
        exists pre' x, pre = pre' ++ [EvCall (true, x)])
  /\ (forall pre c post, tr = pre ++ EvErr c :: post ->
        post = [] /\ exists pre', pre = pre' ++ [EvDone true])
  /\ (forall pre d post, tr = pre ++ EvSleep d :: post ->
        (exists pre', pre = pre' ++ [EvDone false])
        /\ (post = [] \/ exists r post', post = EvCall r :: post'))
  /\ (tr = [] \/ exists r tr', tr = EvCall r :: tr')
  /\ (forall e' err, res = Some (e', err) ->
        (exists pre, tr = pre ++ [EvCall (false, err)])
        \/ (exists pre x, tr = pre ++ [EvCall (true, x); EvDone true; EvErr err])).
Proof.
  intros res tr.
  destruct (run_phase env fuel [] e eq_refl) as (p & Hp & Hres).
  fold tr in Hp, Hres. fold res in Hres.
  assert (Hacc : forall pre ev post, tr = pre ++ ev :: post ->
            exists q q', phase_after AtCall pre = Some q
                         /\ phase_step q ev = Some q'
                         /\ phase_after q' post <> None).
  { intros pre ev post Htr. rewrite Htr in Hp.
    destruct (phase_after_prefix AtCall pre (ev :: post)) as (q & Hq & Hpost);
      [congruence|].
    simpl in Hpost. destruct (phase_step q ev) as [q'|] eqn:Hs; [|congruence].
    eauto. }
  split; [unfold only_between_attempts; rewrite Hp; reflexivity|].
  split; [|split; [|split; [|split]]].
  - intros pre b post Htr.
    destruct (Hacc _ _ _ Htr) as (q & q' & Hq & Hs & _).
    destruct q; try discriminate Hs.
    destruct (phase_after_last _ _ _ Hq) as [[_ [=]] | (h' & ev & q0 & -> & _ & Hs0)].
    destruct q0, ev as [[[|] x]|[|]| |]; try discriminate Hs0. eauto.
  - intros pre c post Htr.
    destruct (Hacc _ _ _ Htr) as (q & q' & Hq & Hs & Hpost).
    destruct q; try discriminate Hs. injection Hs as <-.
    split.
    + destruct post as [|ev post]; [reflexivity|]. simpl in Hpost. congruence.
    + destruct (phase_after_last _ _ _ Hq) as [[_ [=]] | (h' & ev & q0 & -> & _ & Hs0)].
      destruct q0, ev as [[[|] x]|[|]| |]; try discriminate Hs0. eauto.
  - intros pre d post Htr.
    destruct (Hacc _ _ _ Htr) as (q & q' & Hq & Hs & Hpost).
    destruct q; try discriminate Hs. injection Hs as <-.
    split.
    + destruct (phase_after_last _ _ _ Hq) as [[_ [=]] | (h' & ev & q0 & -> & _ & Hs0)].
      destruct q0, ev as [[[|] x]|[|]| |]; try discriminate Hs0. eauto.
    + destruct post as [|ev post]; [left; reflexivity|]. right.
      simpl in Hpost. destruct ev as [r| | |]; try (simpl in Hpost; congruence). eauto.
  - destruct tr as [|ev tr']; [left; reflexivity|]. right.
    simpl in Hp. destruct ev as [r| | |]; try discriminate Hp. eauto.
  - exact Hres.
Qed.

(** C8: with a context that is cancelled before [Retry] is entered, the
    operation is still called, before anything else; and when that first
    call answers [(false, err)], [Retry] returns [err], not the context's
    error, without consulting the context at all. *)
Theorem Retry_calls_operation_before_context (env : Env) (e : ExpTimer) (fuel : nat) :
  (forall h, ctx_Done env h = true) ->
  (2 <= fuel)%nat ->
  (exists l, snd (run fuel env [] (ExpTimer_Retry e)) = EvCall (retryFunc env []) :: l)
  /\ (1 <= calls (snd (run fuel env [] (ExpTimer_Retry e))))%nat
  /\ (forall err, retryFunc env [] = (false, err) ->
        run fuel env [] (ExpTimer_Retry e) = (Some (e, err), [EvCall (false, err)])).
Proof.
  intros Hcan Hf.
  assert (Hs : forall err, retryFunc env [] = (false, err) ->
            run fuel env [] (ExpTimer_Retry e) = (Some (e, err), [EvCall (false, err)])).
  { intros err Hr. destruct fuel as [|[|n]]; try lia. apply (run_stop env [] e err n Hr). }
  assert (Hl : exists l, snd (run fuel env [] (ExpTimer_Retry e))
                         = EvCall (retryFunc env []) :: l).
  { destruct (retryFunc env []) as [[|] x] eqn:Hr.
    - destruct fuel as [|[|[|[|n]]]]; try lia.
      + cbn. rewrite Hr. cbn. eauto.
      + cbn. rewrite Hr. cbn. rewrite Hcan. cbn. eauto.
      + rewrite (run_cancel env [] e x n Hr (Hcan _)). simpl. eauto.
    - rewrite (Hs x eq_refl). simpl. eauto. }
  split; [exact Hl|]. split; [|exact Hs].
  destruct Hl as [l ->]. unfold calls. simpl. lia.
Qed.

Lemma run_Sleep (env : Env) (h : list Event) (e : ExpTimer) (n : nat) :
  run (S (S n)) env h (Sleep e) = (Some (snd (NextDuration e)), h ++ [EvSleep (interval e)]).
Proof. reflexivity. Qed.

(** C6: the package-level [Retry] behaves as [Retry] called on a fresh
    timer with interval 500 milliseconds and multiplier 1.5: from any
    history and with any fuel, the same events happen and the same error
    comes back. *)
Theorem Retry_is_Retry_of_default_timer (env : Env) (h : list Event) (fuel : nat) :
  let fresh := {| interval := 500 * Millisecond;
                  multiplier := S754_finite false (3 * 2 ^ 51) (-52) |} in
  DefaultExpTimer = fresh
  /\ has_value (multiplier fresh) (3 # 2)
  /\ interval fresh = 500000000
  /\ run fuel env h Retry
     = (option_map snd (fst (run fuel env h (ExpTimer_Retry fresh))),
        snd (run fuel env h (ExpTimer_Retry fresh)))
  /\ schedule (snd (run fuel env h Retry))
     = schedule (snd (run fuel env h (ExpTimer_Retry fresh))).
Proof.
  intros fresh.
  assert (Hrun : run fuel env h Retry
                 = (option_map snd (fst (run fuel env h (ExpTimer_Retry fresh))),
                    snd (run fuel env h (ExpTimer_Retry fresh)))).
  { unfold Retry. apply run_map. }
  split; [reflexivity|]. split; [reflexivity|]. split; [reflexivity|].
  split; [exact Hrun | rewrite Hrun; reflexivity].
Qed.

(** C10: no operation changes the multiplier: it is the one given to
    [NewExpTimer] after [NextDuration], after [Sleep] and after [Retry];
    only the interval moves. *)
Theorem multiplier_never_modified :
  (forall i m, multiplier (NewExpTimer i m) = m)
  /\ (forall e, multiplier (snd (NextDuration e)) = multiplier e)
  /\ (forall env fuel h e e',
        fst (run fuel env h (Sleep e)) = Some e' -> multiplier e' = multiplier e)
  /\ (forall env fuel h e e' err,
        fst (run fuel env h (ExpTimer_Retry e)) = Some (e', err) ->
        multiplier e' = multiplier e).
Proof.
  split; [reflexivity|]. split; [reflexivity|]. split.
  - intros env fuel h e e'. destruct fuel as [|[|n]]; try discriminate.
    rewrite run_Sleep. intros [= <-]. reflexivity.
  - intros env fuel h e e' err H.
    destruct (run_timer env fuel h e e' err H) as [n ->].
    apply NextDurations_multiplier.
Qed.

(** X2: [Retry] has no cap on attempts: while the operation asks for a retry
    and the context stays open it never returns, and [4 * N] steps are [N]
    attempts. *)
Theorem Retry_never_gives_up (env : Env) (e : ExpTimer) :
  (forall h, fst (retryFunc env h) = true) ->
  (forall h, ctx_Done env h = false) ->
  (forall fuel, fst (run fuel env [] (ExpTimer_Retry e)) = None)
  /\ (forall N, calls (snd (run (4 * N) env [] (ExpTimer_Retry e))) = N).
Proof.
  intros Htrue Hopen. split.
  - intros fuel. generalize (@Datatypes.nil Event) as h. revert e.
    induction fuel as [fuel IH] using lt_wf_ind. intros e h.
    destruct (run_cases env h e fuel) as [l Hrun Hl | err Hr Hrun | x Hr Hd Hrun | x n Hn Hr Hd Hrun].
    + rewrite Hrun. reflexivity.
    + specialize (Htrue h). rewrite Hr in Htrue. discriminate Htrue.
    + rewrite Hopen in Hd. discriminate Hd.
    + rewrite Hrun. apply IH. lia.
  - intros N.
    assert (H : forall h e0, calls (snd (run (4 * N) env h (ExpTimer_Retry e0))) = (calls h + N)%nat).
    { induction N as [|N IH]; intros h e0.
      - simpl. lia.
      - replace (4 * S N)%nat with (S (S (S (S (4 * N))))) by lia.
        pose proof (Htrue h) as Ht. destruct (retryFunc env h) as [b x] eqn:Hr.
        simpl in Ht. subst b.
        rewrite (run_again env h e0 x (4 * N) Hr (Hopen _)), IH, calls_app.
        unfold calls. simpl. lia. }
    rewrite H. reflexivity.
Qed.

(** X3: in every run, complete or not, the sleeps are the timer's own
    [NextDuration] values, in order: nothing else decides how long [Retry]
    waits. *)
Theorem Retry_sleeps_follow_NextDuration (env : Env) (e : ExpTimer) (fuel : nat) :
  exists n, sleeps (snd (run fuel env [] (ExpTimer_Retry e))) = fst (NextDurations n e).
Proof.
  assert (H : forall h e0, exists n,
             sleeps (snd (run fuel env h (ExpTimer_Retry e0)))
             = sleeps h ++ fst (NextDurations n e0)).
  { induction fuel as [fuel IH] using lt_wf_ind. intros h e0.
    destruct (run_cases env h e0 fuel) as [l Hrun Hl | err Hr Hrun | x Hr Hd Hrun | x n Hn Hr Hd Hrun];
      rewrite Hrun; cbn [snd].
    - rewrite sleeps_app.
      destruct Hl as [-> | [[r ->] | [(x & b & ->) | [(x & c & ->) | (x & ->)]]]];
        try (exists 0%nat; reflexivity).
      exists 1%nat. reflexivity.
    - exists 0%nat. rewrite sleeps_app. reflexivity.
    - exists 0%nat. rewrite sleeps_app. reflexivity.
    - destruct (IH n ltac:(lia) (h ++ [EvCall (true, x); EvDone false; EvSleep (interval e0)])
                  (snd (NextDuration e0))) as [k Hk].
      exists (S k). rewrite Hk, sleeps_app, NextDurations_S, <- app_assoc. reflexivity. }
  destruct (H [] e) as [n Hn]. exists n. exact Hn.
Qed.

End RetryProperties.

(** ** The timer's arithmetic *)

Section TimerArithmetic.

Context {arch : Arch}.

Lemma trunc_finite (s : bool) (m : positive) (e : Z) :
  trunc (S754_finite s m e)
  = Some (cond_Zopp s (if e <? 0 then Zpos m / 2 ^ (- e) else Zpos m * 2 ^ e)).
Proof. destruct e; reflexivity. Qed.

Lemma Duration_of_float64_trunc (f : float64) :
  representable f = true -> trunc f = Some (Duration_of_float64 f).
Proof.
  unfold representable, Duration_of_float64.
  destruct (trunc f) as [z|]; [|discriminate].
  intros ->. reflexivity.
Qed.

(** A valid double that is at least [1] is [+Inf] or a positive normal
    number with exponent at least [-52]. *)
Lemma ge_one_normal (m : float64) :
  valid m = true -> leb one m = true ->
  m = S754_infinity false
  \/ exists mm em, m = S754_finite false mm em /\ 2 ^ 52 <= Zpos mm < 2 ^ 53 /\ -52 <= em.
Proof.
  intros Hv Hle. destruct m as [s | s | | s mm em]; try discriminate Hle.
  - destruct s; [discriminate Hle | left; reflexivity].
  - right. destruct s; [discriminate Hle|].
    unfold valid, valid_binary, bounded, canonical_mantissa in Hv.
    apply andb_prop in Hv. destruct Hv as [Hc _]. apply Z.eqb_eq in Hc.
    unfold fexp, emin, prec, emax in Hc.
    unfold leb, SFleb, SFcompare, one in Hle.
    assert (He : -52 <= em).
    { destruct (Z.compare_spec (-52) em); try lia; try discriminate Hle. }
    exists mm, em. split; [reflexivity|]. split; [|assumption].
    pose proof (digits2_pos_bounds mm) as Hb.
    replace (Zpos (digits2_pos mm)) with 53 in Hb by lia. lia.
Qed.

(** The product of two normal mantissas, rounded: never below the first
    factor when the second stands for a number that is at least [1]. *)
Lemma product_lower (mi mm : positive) (ei em : Z) :
  2 ^ 52 <= Zpos mi < 2 ^ 53 -> 2 ^ 52 <= Zpos mm < 2 ^ 53 ->
  -52 <= ei -> -52 <= em ->
  binary_round_aux prec emax false (Zpos (mi * mm)) (ei + em) loc_Exact = S754_infinity false
  \/ exists m' e',
       binary_round_aux prec emax false (Zpos (mi * mm)) (ei + em) loc_Exact
       = S754_finite false m' e'
       /\ ei <= e' /\ Zpos mi <= Zpos m' * 2 ^ (e' - ei).
Proof.
  intros Hmi Hmm Hei Hem.
  assert (HP : 2 ^ 104 <= Zpos (mi * mm) < 2 ^ 106).
  { rewrite Pos2Z.inj_mul.
    change (2 ^ 104) with (2 ^ 52 * 2 ^ 52). change (2 ^ 106) with (2 ^ 53 * 2 ^ 53).
    split; nia. }
  pose proof (digits2_pos_bounds (mi * mm)) as [Hlo Hhi].
  set (d := Zpos (digits2_pos (mi * mm))) in *.
  assert (Hd : d = 105 \/ d = 106).
  { assert (104 < d).
    { destruct (Z.ltb_spec 104 d); [assumption|].
      assert (2 ^ d <= 2 ^ 104) by (apply Z.pow_le_mono_r; lia). lia. }
    assert (d - 1 < 106).
    { destruct (Z.ltb_spec (d - 1) 106); [assumption|].
      assert (2 ^ 106 <= 2 ^ (d - 1)) by (apply Z.pow_le_mono_r; lia). lia. }
    lia. }
  assert (Hpow : forall k, 0 <= k -> 1 <= 2 ^ k).
  { intros k Hk. pose proof (Z.pow_pos_nonneg 2 k). lia. }
  assert (Hpow1 : forall k, 1 <= k -> 2 <= 2 ^ k).
  { intros k Hk. replace k with (1 + (k - 1)) by lia. rewrite Z.pow_add_r by lia.
    specialize (Hpow (k - 1)). lia. }
  destruct (binary_round_aux_normal false (mi * mm) (ei + em) (d - 53))
    as [[Hinf _] | (m' & Hm' & [[Hfin Hq] | (Hfin & Hm2 & _)])];
    [lia | fold d; lia | lia | left; exact Hinf | right | right].
  - exists m', (ei + em + (d - 53)). split; [exact Hfin|]. split; [lia|].
    destruct Hd as [Hd | Hd]; rewrite Hd in *.
    + assert (Zpos mi <= Zpos (mi * mm) / 2 ^ (105 - 53)).
      { apply Z.div_le_lower_bound; [lia|]. rewrite Pos2Z.inj_mul.
        change (2 ^ (105 - 53)) with (2 ^ 52). nia. }
      specialize (Hpow (ei + em + (105 - 53) - ei)). nia.
    + specialize (Hpow1 (ei + em + (106 - 53) - ei)). nia.
  - exists m', (ei + em + (d - 53) + 1). split; [exact Hfin|]. split; [lia|].
    specialize (Hpow1 (ei + em + (d - 53) + 1 - ei)). nia.
Qed.

(** Cutting the fraction keeps an integer below: when [(m', e')] is no
    smaller than [(mi, ei)] and the latter stands for the integer [i]. *)
Lemma trunc_lower (mi m' : positive) (ei e' i : Z) :
  0 <= i ->
  trunc (S754_finite false mi ei) = Some i ->
  (ei <= 0 -> Zpos mi = i * 2 ^ (- ei)) ->
  ei <= e' -> Zpos mi <= Zpos m' * 2 ^ (e' - ei) ->
  exists z, trunc (S754_finite false m' e') = Some z /\ i <= z.
Proof.
  intros Hi Ht Hexact Hle Hm. rewrite trunc_finite in *. cbn [cond_Zopp] in *.
  eexists. split; [reflexivity|].
  assert (Ht' : (if ei <? 0 then Zpos mi / 2 ^ (- ei) else Zpos mi * 2 ^ ei) = i) by congruence.
  clear Ht. revert Ht'.
  destruct (Z.ltb_spec ei 0) as [Hneg | Hpos]; intros Ht.
  - specialize (Hexact ltac:(lia)).
    assert (H0 : 0 < 2 ^ (- ei)) by (apply Z.pow_pos_nonneg; lia).
    destruct (Z.ltb_spec e' 0) as [Hneg' | Hpos'].
    + apply Z.div_le_lower_bound; [apply Z.pow_pos_nonneg; lia|].
      assert (H1 : 0 < 2 ^ (e' - ei)) by (apply Z.pow_pos_nonneg; lia).
      assert (H2 : 2 ^ (- ei) = 2 ^ (- e') * 2 ^ (e' - ei)).
      { rewrite <- Z.pow_add_r by lia. f_equal; lia. }
      rewrite H2 in Hexact. nia.
    + assert (H2 : 2 ^ (e' - ei) = 2 ^ e' * 2 ^ (- ei)).
      { rewrite <- Z.pow_add_r by lia. f_equal; lia. }
      rewrite H2 in Hm. nia.
  - destruct (Z.ltb_spec e' 0) as [Hneg' | Hpos']; [lia|].
    assert (H2 : 2 ^ e' = 2 ^ (e' - ei) * 2 ^ ei).
    { rewrite <- Z.pow_add_r by lia. f_equal; lia. }
    assert (H0 : 0 < 2 ^ ei) by (apply Z.pow_pos_nonneg; lia).
    assert (H3 : Zpos mi * 2 ^ ei <= Zpos m' * 2 ^ (e' - ei) * 2 ^ ei)
      by (apply Z.mul_le_mono_nonneg_r; lia).
    rewrite H2. subst i. lia.
Qed.

(** C5 (amended): for a timer whose interval is not negative and is held
    exactly by [float64] (every interval up to [2^53] is), whose multiplier
    is a valid double that is at least [1], and whose scaled interval fits
    [int64], the interval after [NextDuration] is at least the interval
    before. *)
Theorem NextDuration_nondecreasing (e : ExpTimer) :
  0 <= interval e <= Int64.max_int ->
  trunc (float64_of_Duration (interval e)) = Some (interval e) ->
  valid (multiplier e) = true ->
  leb one (multiplier e) = true ->
  representable (mul (float64_of_Duration (interval e)) (multiplier e)) = true ->
  interval e <= interval (snd (NextDuration e)).
Proof.
  intros [Hi0 Himax] Hexact Hvalid Hge Hrep.
  cbn [NextDuration snd interval].
  pose proof (Duration_of_float64_trunc _ Hrep) as Ht.
  remember (Duration_of_float64 (mul (float64_of_Duration (interval e)) (multiplier e)))
    as z eqn:Ez. clear Ez.
  unfold float64_of_Duration, of_int in *.
  destruct (interval e) as [|p|p]; [| |lia]; cbn [binary_normalize] in *.
  - (* the interval is 0 *)
    destruct (ge_one_normal _ Hvalid Hge) as [Hm | (mm & em & Hm & _)];
      rewrite Hm in Ht, Hrep.
    + discriminate Hrep.
    + cbn in Ht. injection Ht as <-. lia.
  - (* the interval is positive *)
    destruct (binary_round_int false p) as (mi & ei & Hof & Hmi & Hei & Hsmall & _).
    { unfold Int64.max_int in Himax. lia. }
    rewrite Hof in Ht, Hrep, Hexact.
    destruct (ge_one_normal _ Hvalid Hge) as [Hm | (mm & em & Hm & Hmm & Hem)];
      rewrite Hm in Ht, Hrep.
    + discriminate Hrep.
    + unfold mul in Ht, Hrep. cbn [SFmul xorb] in Ht, Hrep.
      destruct (product_lower mi mm ei em Hmi Hmm) as [Hinf | (m' & e' & Hfin & Hle & Hlow)];
        [lia | lia | |].
      * rewrite Hinf in Hrep. discriminate Hrep.
      * rewrite Hfin in Ht.
        destruct (trunc_lower mi m' ei e' (Zpos p)) as (z' & Hz' & Hlez);
          [lia | exact Hexact | exact Hsmall | exact Hle | exact Hlow |].
        rewrite Hz' in Ht. injection Ht as <-. exact Hlez.
Qed.

(** X1: every interval from [0] to [2^53] is held exactly by [float64]. *)
Lemma small_interval_exact (i : Z) :
  0 <= i <= 2 ^ 53 -> trunc (float64_of_Duration i) = Some i.
Proof.
  intros Hi. unfold float64_of_Duration, of_int.
  destruct i as [|p|p]; [reflexivity | | lia]. cbn [binary_normalize].
  destruct (Z.eq_dec (Zpos p) (2 ^ 53)) as [E | NE].
  - injection E as ->. reflexivity.
  - destruct (binary_round_int false p) as (mi & ei & Hof & Hmi & Hei & Hsmall & Hneg); [lia|].
    rewrite Hof, trunc_finite. cbn [cond_Zopp].
    specialize (Hneg ltac:(lia)). specialize (Hsmall Hneg). rewrite Hsmall.
    destruct (Z.ltb_spec ei 0) as [Hlt | Hge].
    + rewrite Z.div_mul; [reflexivity|].
      pose proof (Z.pow_pos_nonneg 2 (- ei)). lia.
    + replace ei with 0 by lia. simpl (- 0). rewrite Z.pow_0_r, !Z.mul_1_r. reflexivity.
Qed.

(** Multiplying a normal number by [2] moves its exponent up by one. *)
Lemma mul_two (s : bool) (mi : positive) (ei : Z) :
  2 ^ 52 <= Zpos mi < 2 ^ 53 -> -52 <= ei <= 12 ->
  mul (S754_finite s mi ei) two = S754_finite s mi (ei + 1).
Proof.
  intros Hmi Hei. unfold mul, two. cbn [SFmul]. rewrite xorb_false_r.
  assert (Hp : Zpos (mi * 4503599627370496) = Zpos mi * 2 ^ 52) by (rewrite Pos2Z.inj_mul; reflexivity).
  rewrite (binary_round_aux_exact s (mi * 4503599627370496) (ei + -51) 52).
  - rewrite Hp, Z.div_mul by lia. cbn [Z.to_pos]. f_equal. lia.
  - lia.
  - apply digits2_pos_unique. rewrite Hp.
    change (2 ^ (53 + 52 - 1)) with (2 ^ 52 * 2 ^ 52).
    change (2 ^ (53 + 52)) with (2 ^ 53 * 2 ^ 52). lia.
  - exists (Zpos mi). exact Hp.
  - lia.
Qed.

(** With the exponent one higher, the integer part doubles, provided the
    number stood for an integer. *)
Lemma trunc_succ_exponent (s : bool) (mi p : positive) (ei : Z) :
  (ei <= 0 -> Zpos mi = Zpos p * 2 ^ (- ei)) ->
  trunc (S754_finite s mi (ei + 1)) = option_map (Z.mul 2) (trunc (S754_finite s mi ei)).
Proof.
  intros Hsmall. rewrite !trunc_finite. cbn [option_map]. f_equal.
  assert (Hv : (if ei + 1 <? 0 then Zpos mi / 2 ^ (- (ei + 1)) else Zpos mi * 2 ^ (ei + 1))
               = 2 * (if ei <? 0 then Zpos mi / 2 ^ (- ei) else Zpos mi * 2 ^ ei)).
  { destruct (Z.ltb_spec ei 0) as [Hneg | Hpos].
    - specialize (Hsmall ltac:(lia)).
      assert (H2 : 2 ^ (- ei) = 2 ^ (- (ei + 1)) * 2).
      { replace (- ei) with (Z.succ (- (ei + 1))) by lia. rewrite Z.pow_succ_r by lia. ring. }
      assert (H0 : 0 < 2 ^ (- (ei + 1))) by (apply Z.pow_pos_nonneg; lia).
      assert (H1 : 0 < 2 ^ (- ei)) by lia.
      rewrite Hsmall. rewrite (Z.div_mul (Zpos p) (2 ^ (- ei))) by lia.
      destruct (Z.ltb_spec (ei + 1) 0) as [Hneg' | Hpos'].
      + rewrite H2. replace (Zpos p * (2 ^ (- (ei + 1)) * 2)) with (2 * Zpos p * 2 ^ (- (ei + 1))) by ring.
        apply Z.div_mul. lia.
      + replace (ei + 1) with 0 by lia. replace (- ei) with 1 by lia. simpl (2 ^ 0). simpl (2 ^ 1). lia.
    - destruct (Z.ltb_spec (ei + 1) 0) as [Hneg' | Hpos']; [lia|].
      replace (ei + 1) with (Z.succ ei) by lia. rewrite Z.pow_succ_r by lia. ring. }
  rewrite Hv. destruct s; cbn [cond_Zopp]; lia.
Qed.

(** Multiplier 2 doubles every interval that [float64] holds exactly, as
    long as the double fits [int64]. *)
Lemma NextDuration_doubles (i : Duration) :
  trunc (float64_of_Duration i) = Some i ->
  Int64.in_range (2 * i) = true ->
  interval (snd (NextDuration (NewExpTimer i two))) = 2 * i.
Proof.
  intros Hexact Hrange. cbn [NextDuration NewExpTimer snd interval multiplier].
  assert (Ht : trunc (mul (float64_of_Duration i) two) = Some (2 * i)).
  { unfold float64_of_Duration, of_int in *.
    assert (Hb : - 2 ^ 63 <= 2 * i <= 2 ^ 63 - 1).
    { unfold Int64.in_range, Int64.min_int, Int64.max_int in Hrange.
      apply andb_prop in Hrange. destruct Hrange as [H1 H2].
      apply Z.leb_le in H1, H2. lia. }
    destruct i as [|p|p]; cbn [binary_normalize] in *.
    - reflexivity.
    - destruct (binary_round_int false p) as (mi & ei & Hof & Hmi & Hei & Hsmall & _); [lia|].
      rewrite Hof in *. rewrite mul_two by assumption.
      rewrite (trunc_succ_exponent false mi p ei Hsmall), Hexact. reflexivity.
    - destruct (binary_round_int true p) as (mi & ei & Hof & Hmi & Hei & Hsmall & _); [lia|].
      rewrite Hof in *. rewrite mul_two by assumption.
      rewrite (trunc_succ_exponent true mi p ei Hsmall), Hexact. reflexivity. }
  unfold Duration_of_float64. rewrite Ht, Hrange. reflexivity.
Qed.

(** C2 (amended): [NextDuration] returns the interval it finds; afterwards
    the interval is the [float64] product of the old interval and the
    multiplier with its fraction cut off (whenever that fits [int64]); with
    multiplier 2 that is exactly twice the old interval, for every interval
    [float64] holds exactly; in particular, for interval 1 and multiplier 2,
    ten calls return 1, 2, 4, ..., 512 in that order. *)
Theorem NextDuration_returns_interval_then_scales :
  (forall e, fst (NextDuration e) = interval e)
  /\ (forall e, interval (snd (NextDuration e))
                = Duration_of_float64 (mul (float64_of_Duration (interval e)) (multiplier e)))
  /\ (forall e q,
        representable (mul (float64_of_Duration (interval e)) (multiplier e)) = true ->
        has_value (mul (float64_of_Duration (interval e)) (multiplier e)) q ->
        interval (snd (NextDuration e)) = Qtrunc q)
  /\ has_value two 2
  /\ (forall i,
        trunc (float64_of_Duration i) = Some i ->
        Int64.in_range (2 * i) = true ->
        interval (snd (NextDuration (NewExpTimer i two))) = 2 * i
        /\ scales_exactly (NewExpTimer i two))
  /\ fst (NextDurations 10 (NewExpTimer 1 two)) = [1; 2; 4; 8; 16; 32; 64; 128; 256; 512].
Proof.
  split; [reflexivity|]. split; [reflexivity|]. split; [|split; [reflexivity|split]].
  - intros e q Hrep Hq. cbn [NextDuration snd interval].
    apply (trunc_value _ _ _ Hq). apply Duration_of_float64_trunc. exact Hrep.
  - intros i Hexact Hrange.
    pose proof (NextDuration_doubles i Hexact Hrange) as Hd.
    split; [exact Hd|].
    intros q Hq. rewrite Hd. cbn [NewExpTimer interval multiplier] in *.
    assert (H2 : (q == 2)%Q).
    { unfold has_value in Hq. cbn [to_Q two] in Hq. rewrite <- Hq. reflexivity. }
    rewrite H2, inject_Z_mult. ring.
  - vm_compute. reflexivity.
Qed.

Lemma is_normal_bounds (f : float64) :
  is_normal f = true ->
  exists s m e, f = S754_finite s m e /\ 2 ^ 52 <= Zpos m < 2 ^ 53 /\ -1074 <= e <= 971.
Proof.
  destruct f as [s | s | | s m e]; try discriminate. cbn [is_normal]. intros H.
  apply andb_prop in H. destruct H as [H H4]. apply andb_prop in H. destruct H as [H H3].
  apply andb_prop in H. destruct H as [H1 H2].
  apply Z.leb_le in H1, H3, H4. apply Z.ltb_lt in H2.
  exists s, m, e. repeat split; assumption.
Qed.

(** The product of two normal mantissas, rounded: a mantissa [m'] at an
    exponent [k] places up, which differs from the exact product by at most
    [d], where [d] is at most the product's [2^-52]th part. *)
Lemma product_rounded (s : bool) (mx my : positive) (ex ey : Z) :
  2 ^ 52 <= Zpos mx < 2 ^ 53 -> 2 ^ 52 <= Zpos my < 2 ^ 53 ->
  -1074 <= ex + ey + 52 ->
  binary_round_aux prec emax s (Zpos (mx * my)) (ex + ey) loc_Exact = S754_infinity s
  \/ exists m' k d,
       binary_round_aux prec emax s (Zpos (mx * my)) (ex + ey) loc_Exact
       = S754_finite s m' (ex + ey + k)
       /\ 0 <= k
       /\ Z.abs (Zpos m' * 2 ^ k - Zpos (mx * my)) <= d
       /\ d * 2 ^ 52 <= Zpos (mx * my).
Proof.
  intros Hmx Hmy He.
  assert (HP : 2 ^ 104 <= Zpos (mx * my) < 2 ^ 106).
  { rewrite Pos2Z.inj_mul.
    change (2 ^ 104) with (2 ^ 52 * 2 ^ 52). change (2 ^ 106) with (2 ^ 53 * 2 ^ 53).
    split; nia. }
  pose proof (digits2_pos_bounds (mx * my)) as [Hlo Hhi].
  set (P := Zpos (mx * my)) in *.
  set (d := Zpos (digits2_pos (mx * my))) in *.
  assert (Hd : d = 105 \/ d = 106).
  { assert (104 < d).
    { destruct (Z.ltb_spec 104 d); [assumption|].
      assert (2 ^ d <= 2 ^ 104) by (apply Z.pow_le_mono_r; lia). lia. }
    assert (d - 1 < 106).
    { destruct (Z.ltb_spec (d - 1) 106); [assumption|].
      assert (2 ^ 106 <= 2 ^ (d - 1)) by (apply Z.pow_le_mono_r; lia). lia. }
    lia. }
  set (n := d - 53) in *.
  assert (Hn : 52 <= n <= 53) by (unfold n; lia).
  assert (H2n : 0 < 2 ^ n) by (apply Z.pow_pos_nonneg; lia).
  assert (Hlo' : 2 ^ n * 2 ^ 52 <= P).
  { rewrite <- Z.pow_add_r by lia. replace (n + 52) with (d - 1) by (unfold n; lia). exact Hlo. }
  pose proof (Z.div_mod P (2 ^ n) ltac:(lia)) as Hdm.
  pose proof (Z.mod_pos_bound P (2 ^ n) H2n) as Hmod.
  destruct (binary_round_aux_normal s (mx * my) (ex + ey) n)
    as [[Hinf _] | (m' & Hm' & [[Hfin Hq] | (Hfin & Hm2 & Hc)])];
    [lia | unfold n; fold d; lia | lia | left; exact Hinf | right | right].
  - exists m', n, (2 ^ n). fold P in Hq. split; [exact Hfin|]. split; [lia|].
    split; [|lia]. nia.
  - exists m', (n + 1), (2 ^ n). fold P in Hc.
    split; [rewrite Z.add_assoc; exact Hfin|]. split; [lia|]. split; [|lia].
    rewrite Z.pow_add_r, Hm2 by lia. change (2 ^ 1) with 2. nia.
Qed.


Lemma cond_Zopp_mul (sx sy : bool) (a b : Z) :
  cond_Zopp sx a * cond_Zopp sy b = cond_Zopp (xorb sx sy) (a * b).
Proof. destruct sx, sy; cbn [cond_Zopp xorb]; lia. Qed.

Lemma value_product (sx sy : bool) (a b ex ey : Z) :
  ((inject_Z (cond_Zopp sx a) * 2 ^ ex) * (inject_Z (cond_Zopp sy b) * 2 ^ ey)
   == inject_Z (cond_Zopp (xorb sx sy) (a * b)) * 2 ^ (ex + ey))%Q.
Proof.
  rewrite <- cond_Zopp_mul, inject_Z_mult, Qpower_plus by discriminate. ring.
Qed.

Lemma value_difference (s : bool) (a b e k : Z) :
  0 <= k ->
  (inject_Z (cond_Zopp s a) * 2 ^ (e + k) - inject_Z (cond_Zopp s b) * 2 ^ e
   == inject_Z (cond_Zopp s (a * 2 ^ k - b)) * 2 ^ e)%Q.
Proof.
  intros Hk.
  assert (H : cond_Zopp s (a * 2 ^ k - b) = cond_Zopp s a * 2 ^ k + - cond_Zopp s b)
    by (destruct s; cbn [cond_Zopp]; lia).
  rewrite H, inject_Z_plus, inject_Z_opp, inject_Z_mult.
  rewrite Qpower_plus by discriminate. rewrite (Qpower2_nonneg k Hk). ring.
Qed.

(** The [float64] product of two normal numbers, when finite, is the exact
    product of their values up to a [2^-52]th of it. *)
Lemma mul_accurate (sx sy : bool) (mx my : positive) (ex ey : Z) (q : Q) :
  2 ^ 52 <= Zpos mx < 2 ^ 53 -> 2 ^ 52 <= Zpos my < 2 ^ 53 ->
  -1074 <= ex + ey + 52 ->
  has_value (mul (S754_finite sx mx ex) (S754_finite sy my ey)) q ->
  (Qabs (q - (inject_Z (cond_Zopp sx (Zpos mx)) * 2 ^ ex)
             * (inject_Z (cond_Zopp sy (Zpos my)) * 2 ^ ey)) * inject_Z (2 ^ 52)
   <= Qabs ((inject_Z (cond_Zopp sx (Zpos mx)) * 2 ^ ex)
            * (inject_Z (cond_Zopp sy (Zpos my)) * 2 ^ ey)))%Q.
Proof.
  intros Hmx Hmy He. unfold mul. cbn [SFmul].
  destruct (product_rounded (xorb sx sy) mx my ex ey Hmx Hmy He)
    as [Hinf | (m' & k & d & Hfin & Hk & Hd & Hrel)].
  - rewrite Hinf. intros [].
  - rewrite Hfin. unfold has_value. cbn [to_Q]. intros Hq.
    rewrite <- Hq, value_product.
    change (Z.pos mx * Z.pos my) with (Z.pos (mx * my)).
    rewrite value_difference by assumption.
    assert (HE : (0 < 2 ^ (ex + ey))%Q) by (apply Qpower_0_lt; reflexivity).
    rewrite !Qabs_Qmult, (Qabs_pos (2 ^ (ex + ey))) by (apply Qlt_le_weak; exact HE).
    assert (Ha : forall z, Qabs (inject_Z (cond_Zopp (xorb sx sy) z)) = inject_Z (Z.abs z)).
    { intros z. destruct (xorb sx sy); cbn [cond_Zopp]; unfold Qabs, inject_Z;
        [rewrite Z.abs_opp|]; reflexivity. }
    rewrite !Ha.
    rewrite <- Qmult_assoc, (Qmult_comm (2 ^ (ex + ey))), Qmult_assoc, <- inject_Z_mult.
    apply Qmult_le_compat_r; [|apply Qlt_le_weak; exact HE].
    rewrite <- Zle_Qle. cbn [Z.abs] in *. nia.
Qed.


(** [float64(i)] stands for [i] itself when [i] has at most 53 digits. *)
Lemma of_int_value (i : Z) :
  - 2 ^ 53 <= i <= 2 ^ 53 -> has_value (float64_of_Duration i) (inject_Z i).
Proof.
  intros Hi. unfold float64_of_Duration, of_int, has_value.
  assert (Hp : forall s p, Zpos p <= 2 ^ 53 ->
                match to_Q (binary_round prec emax s p 0) with
                | Some q' => (q' == inject_Z (cond_Zopp s (Zpos p)))%Q
                | None => False
                end).
  { intros s p Hle. destruct (Z.eq_dec (Zpos p) (2 ^ 53)) as [E | NE].
    - injection E as ->. destruct s; reflexivity.
    - destruct (binary_round_int s p) as (mi & ei & Hof & Hmi & Hei & Hsmall & Hneg); [lia|].
      rewrite Hof. cbn [to_Q].
      specialize (Hneg ltac:(lia)). specialize (Hsmall Hneg).
      replace (cond_Zopp s (Zpos mi)) with (cond_Zopp s (Zpos p) * 2 ^ (- ei))
        by (rewrite Hsmall; destruct s; cbn [cond_Zopp]; lia).
      rewrite inject_Z_mult, <- (Qpower2_nonneg (- ei)) by lia.
      rewrite <- Qmult_assoc, <- Qpower_plus by discriminate.
      replace (- ei + ei) with 0 by lia. cbn [Qpower]. ring. }
  destruct i as [|p|p]; cbn [binary_normalize].
  - reflexivity.
  - apply (Hp false p). lia.
  - apply (Hp true p). lia.
Qed.

(** [float64(i)] for an [int64] [i] other than 0 is a normal number. *)
Lemma of_int_normal (i : Z) :
  Int64.in_range i = true -> i <> 0 ->
  exists s mi ei, float64_of_Duration i = S754_finite s mi ei
                  /\ 2 ^ 52 <= Zpos mi < 2 ^ 53 /\ -52 <= ei <= 12.
Proof.
  intros Hr Hi. unfold Int64.in_range, Int64.min_int, Int64.max_int in Hr.
  apply andb_prop in Hr. destruct Hr as [H1 H2]. apply Z.leb_le in H1, H2.
  unfold float64_of_Duration, of_int. destruct i as [|p|p]; cbn [binary_normalize]; [lia | |].
  - destruct (binary_round_int false p) as (mi & ei & Hof & Hmi & Hei & _); [lia|].
    exists false, mi, ei. auto.
  - destruct (binary_round_int true p) as (mi & ei & Hof & Hmi & Hei & _); [lia|].
    exists true, mi, ei. auto.
Qed.

(** The product [NextDuration] forms is, when finite, the exact product of
    the two values up to a [2^-52]th of it. *)
Lemma NextDuration_product_accurate (e : ExpTimer) (qi qm q : Q) :
  Int64.in_range (interval e) = true ->
  is_normal (multiplier e) = true ->
  has_value (float64_of_Duration (interval e)) qi ->
  has_value (multiplier e) qm ->
  has_value (mul (float64_of_Duration (interval e)) (multiplier e)) q ->
  (Qabs (q - qi * qm) * inject_Z (2 ^ 52) <= Qabs (qi * qm))%Q.
Proof.
  intros Hr Hn. destruct (is_normal_bounds _ Hn) as (sy & my & ey & -> & Hmy & Hey).
  destruct (Z.eq_dec (interval e) 0) as [-> | Hnz].
  - change (float64_of_Duration 0) with (S754_zero false).
    unfold mul. cbn [SFmul]. unfold has_value. cbn [to_Q]. intros Hqi _ Hq.
    rewrite <- Hqi, <- Hq.
    assert (H0 : (0 - 0 * qm == 0)%Q) by ring.
    assert (H1 : (0 * qm == 0)%Q) by ring.
    rewrite H0, H1. discriminate.
  - destruct (of_int_normal _ Hr Hnz) as (sx & mx & ex & -> & Hmx & Hex).
    unfold has_value at 1 2. cbn [to_Q]. intros Hqi Hqm Hq.
    rewrite <- Hqi, <- Hqm. apply mul_accurate; [assumption | assumption | lia | exact Hq].
Qed.


(** An integer of at most 52 digits times 1.5: the product is exact, and
    cutting it to an integer leaves [3 p / 2] rounded down. *)
Lemma three_halves_trunc (s : bool) (p : positive) :
  Zpos p <= 2 ^ 51 ->
  trunc (mul (binary_round prec emax s p 0) (literal 3 1))
  = Some (cond_Zopp s (3 * Zpos p / 2)).
Proof.
  intros Hp.
  destruct (binary_round_int s p) as (mi & ei & Hof & Hmi & Hei & Hsmall & Hneg); [lia|].
  specialize (Hneg ltac:(lia)). specialize (Hsmall Hneg).
  rewrite Hof.
  replace (literal 3 1) with (S754_finite false 6755399441055744 (-52))
    by (vm_compute; reflexivity).
  unfold mul. cbn [SFmul]. rewrite xorb_false_r.
  assert (HP : Zpos (mi * 6755399441055744) = 3 * Zpos mi * 2 ^ 51)
    by (rewrite Pos2Z.inj_mul; change (Zpos 6755399441055744) with (3 * 2 ^ 51); ring).
  remember (- ei) as k eqn:Ek.
  assert (Hei' : ei = - k) by lia. subst ei. clear Ek.
  assert (Hk : 1 <= k <= 52).
  { split; [|lia]. destruct (Z.eq_dec k 0) as [-> | ]; [|lia].
    rewrite Z.pow_0_r in Hsmall. lia. }
  assert (H2k : 2 ^ k = 2 * 2 ^ (k - 1)).
  { replace k with (1 + (k - 1)) at 1 by lia. rewrite Z.pow_add_r by lia. reflexivity. }
  assert (Hk1 : 0 < 2 ^ (k - 1)) by (apply Z.pow_pos_nonneg; lia).
  destruct (Z.ltb_spec (3 * Zpos mi) (2 ^ 54)) as [Hlt | Hge].
  - assert (Hq : Zpos (mi * 6755399441055744) / 2 ^ 52 = 3 * Zpos p * 2 ^ (k - 1)).
    { rewrite HP, Hsmall, H2k.
      replace (3 * (Zpos p * (2 * 2 ^ (k - 1))) * 2 ^ 51)
        with (3 * Zpos p * 2 ^ (k - 1) * 2 ^ 52)
        by (change (2 ^ 52) with (2 * 2 ^ 51); ring).
      apply Z.div_mul. lia. }
    rewrite (binary_round_aux_exact s (mi * 6755399441055744) (- k + -52) 52).
    + rewrite Hq, trunc_finite.
      replace (- k + -52 + 52 <? 0) with true by (symmetry; apply Z.ltb_lt; lia).
      rewrite Z2Pos.id by lia.
      replace (- (- k + -52 + 52)) with k by lia.
      do 2 f_equal. rewrite H2k. apply Z.div_mul_cancel_r; lia.
    + lia.
    + apply digits2_pos_unique. rewrite HP.
      change (2 ^ (53 + 52 - 1)) with (2 * 2 ^ 52 * 2 ^ 51).
      change (2 ^ (53 + 52)) with (2 ^ 54 * 2 ^ 51). lia.
    + exists (3 * Zpos p * 2 ^ (k - 1)). rewrite HP, Hsmall, H2k.
      change (2 ^ 52) with (2 * 2 ^ 51). ring.
    + lia.
  - assert (Hk2 : 2 <= k).
    { destruct (Z.eq_dec k 1) as [-> | ]; [|lia]. change (2 ^ 1) with 2 in Hsmall. lia. }
    assert (H2k' : 2 ^ (k - 1) = 2 * 2 ^ (k - 2)).
    { replace (k - 1) with (1 + (k - 2)) by lia. rewrite Z.pow_add_r by lia. reflexivity. }
    assert (Hk2' : 0 < 2 ^ (k - 2)) by (apply Z.pow_pos_nonneg; lia).
    assert (Hq : Zpos (mi * 6755399441055744) / 2 ^ 53 = 3 * Zpos p * 2 ^ (k - 2)).
    { rewrite HP, Hsmall, H2k, H2k'.
      replace (3 * (Zpos p * (2 * (2 * 2 ^ (k - 2)))) * 2 ^ 51)
        with (3 * Zpos p * 2 ^ (k - 2) * 2 ^ 53)
        by (change (2 ^ 53) with (2 * 2 * 2 ^ 51); ring).
      apply Z.div_mul. lia. }
    rewrite (binary_round_aux_exact s (mi * 6755399441055744) (- k + -52) 53).
    + rewrite Hq, trunc_finite.
      replace (- k + -52 + 53 <? 0) with true by (symmetry; apply Z.ltb_lt; lia).
      rewrite Z2Pos.id by lia.
      replace (- (- k + -52 + 53)) with (k - 1) by lia.
      do 2 f_equal. rewrite H2k'. apply Z.div_mul_cancel_r; lia.
    + lia.
    + apply digits2_pos_unique. rewrite HP.
      change (2 ^ (53 + 53 - 1)) with (2 ^ 54 * 2 ^ 51).
      change (2 ^ (53 + 53)) with (3 * 2 ^ 53 * 2 ^ 51 + 2 ^ 53 * 2 ^ 51). lia.
    + exists (3 * Zpos p * 2 ^ (k - 2)). rewrite HP, Hsmall, H2k, H2k'.
      change (2 ^ 53) with (2 * 2 * 2 ^ 51). ring.
    + lia.
Qed.

(** With the default multiplier 1.5 the new interval is three halves of the
    old one with the half dropped, towards zero. *)
Lemma NextDuration_three_halves (i : Duration) :
  - 2 ^ 51 <= i <= 2 ^ 51 ->
  interval (snd (NextDuration (NewExpTimer i (literal 3 1)))) = Z.quot (3 * i) 2.
Proof.
  intros Hi. cbn [NextDuration snd interval NewExpTimer multiplier].
  unfold Duration_of_float64, float64_of_Duration, of_int.
  destruct i as [|p|p]; cbn [binary_normalize].
  - reflexivity.
  - rewrite three_halves_trunc by lia. cbn [cond_Zopp].
    assert (H : 0 <= 3 * Zpos p / 2 <= 2 ^ 53).
    { split; [apply Z.div_pos; lia | apply Z.div_le_upper_bound; lia]. }
    replace (Int64.in_range (3 * Zpos p / 2)) with true.
    + symmetry. apply Z.quot_div_nonneg; lia.
    + symmetry. unfold Int64.in_range, Int64.min_int, Int64.max_int.
      apply andb_true_intro. split; apply Z.leb_le; lia.
  - rewrite three_halves_trunc by lia. cbn [cond_Zopp].
    assert (H : 0 <= 3 * Zpos p / 2 <= 2 ^ 53).
    { split; [apply Z.div_pos; lia | apply Z.div_le_upper_bound; lia]. }
    replace (Int64.in_range (- (3 * Zpos p / 2))) with true.
    + replace (3 * Zneg p) with (- (3 * Zpos p)) by lia.
      rewrite Z.quot_opp_l by lia. f_equal. symmetry. apply Z.quot_div_nonneg; lia.
    + symmetry. unfold Int64.in_range, Int64.min_int, Int64.max_int.
      apply andb_true_intro. split; apply Z.leb_le; lia.
Qed.

(** C9: the new interval is the integer interval converted to [float64],
    multiplied by the multiplier and cut back to an integer, the fraction
    lost.  The conversion is exact up to [2^53]; the product is the exact
    product of the two values up to a [2^-52]th of it; the cut is towards
    zero.  With the default multiplier 1.5 the interval [i] becomes [3 i / 2]
    with the half dropped (3 becomes 4, 1 stays 1): with interval 1 the
    product 1.5 is cut to 1, every call returns 1 and the interval stays 1
    for ever. *)
Theorem NextDuration_truncates_product :
  (forall e, interval (snd (NextDuration e))
             = Duration_of_float64 (mul (float64_of_Duration (interval e)) (multiplier e)))
  /\ (forall i, - 2 ^ 53 <= i <= 2 ^ 53 -> has_value (float64_of_Duration i) (inject_Z i))
  /\ (forall e qi qm q,
        Int64.in_range (interval e) = true ->
        is_normal (multiplier e) = true ->
        has_value (float64_of_Duration (interval e)) qi ->
        has_value (multiplier e) qm ->
        has_value (mul (float64_of_Duration (interval e)) (multiplier e)) q ->
        (Qabs (q - qi * qm) * inject_Z (2 ^ 52) <= Qabs (qi * qm))%Q)
  /\ (forall f q, representable f = true -> has_value f q -> Duration_of_float64 f = Qtrunc q)
  /\ has_value (literal 3 1) (3 # 2)
  /\ is_normal (literal 3 1) = true
  /\ (forall i, - 2 ^ 51 <= i <= 2 ^ 51 ->
        interval (snd (NextDuration (NewExpTimer i (literal 3 1)))) = Z.quot (3 * i) 2)
  /\ has_value (mul (float64_of_Duration 1) (literal 3 1)) (3 # 2)
  /\ Qtrunc (3 # 2) = 1
  /\ (forall n, NextDurations n (NewExpTimer 1 (literal 3 1))
                = (repeat 1 n, NewExpTimer 1 (literal 3 1))).
Proof.
  split; [reflexivity|].
  split; [exact of_int_value|].
  split; [exact NextDuration_product_accurate|].
  split.
  - intros f q Hrep Hq. apply (trunc_value _ _ _ Hq).
    apply Duration_of_float64_trunc. exact Hrep.
  - split; [reflexivity|]. split; [reflexivity|].
    split; [exact NextDuration_three_halves|].
    split; [reflexivity|]. split; [reflexivity|].
    induction n as [|n IH]; [reflexivity|].
    rewrite NextDurations_S.
    change (snd (NextDuration (NewExpTimer 1 (literal 3 1)))) with (NewExpTimer 1 (literal 3 1)).
    rewrite IH. reflexivity.
Qed.

(** The default timer's first scaling: 0.5 s times 1.5 is 0.75 s, exactly. *)
Example default_product :
  has_value (mul (float64_of_Duration DefaultInitialInterval) DefaultMultiplier)
            (inject_Z 750000000)
  /\ has_value (mul (float64_of_Duration 3) DefaultMultiplier) (9 # 2)
  /\ interval (snd (NextDuration (NewExpTimer 3 DefaultMultiplier))) = 4
  /\ interval (snd (NextDuration (NewExpTimer (-3) DefaultMultiplier))) = -4.
Proof. repeat split; reflexivity. Qed.

End TimerArithmetic.

(** C2, as the spec words it, fails: with interval 1 and multiplier 1.5 the
    interval after [NextDuration] is 1, not 1.5. *)
Lemma NextDuration_not_exact_product :
  has_value (multiplier (NewExpTimer 1 (literal 3 1))) (3 # 2)
  /\ interval (snd (@NextDuration amd64 (NewExpTimer 1 (literal 3 1)))) = 1
  /\ ~ @scales_exactly amd64 (NewExpTimer 1 (literal 3 1)).
Proof.
  split; [reflexivity|]. split; [reflexivity|].
  intros H. specialize (H (3 # 2)%Q ltac:(reflexivity)).
  vm_compute in H. discriminate H.
Qed.

(** C5, as the spec words it, fails twice over: a negative interval moves
    away from zero (-2 becomes -4 under multiplier 2), and an interval that
    [float64] cannot hold is rounded first (2^53 + 1 becomes 2^53 under
    multiplier 1). *)
Lemma NextDuration_can_shrink :
  (leb one two = true
   /\ interval (snd (@NextDuration amd64 (NewExpTimer (-2) two))) = -4
   /\ ~ @grows_when_multiplier_ge_one amd64 (NewExpTimer (-2) two))
  /\ (leb one one = true
      /\ interval (snd (@NextDuration amd64 (NewExpTimer (2 ^ 53 + 1) one))) = 2 ^ 53
      /\ ~ @grows_when_multiplier_ge_one amd64 (NewExpTimer (2 ^ 53 + 1) one)).
Proof.
  split; (split; [reflexivity|]); (split; [reflexivity|]);
    intros H; specialize (H eq_refl); vm_compute in H; apply H; reflexivity.
Qed.

(** ** Degenerate timers *)

Section DegenerateTimers.

Context {arch : Arch}.

Lemma zero_interval_fixed (e : ExpTimer) :
  interval e = 0 -> is_finite (multiplier e) = true -> NextDuration e = (0, e).
Proof.
  destruct e as [i m]. cbn [interval multiplier]. intros -> Hm.
  unfold NextDuration. cbn [interval multiplier]. f_equal. f_equal.
  destruct m as [s | s | | s mm em]; try discriminate Hm; reflexivity.
Qed.

Lemma zero_interval_forever (e : ExpTimer) (n : nat) :
  interval e = 0 -> is_finite (multiplier e) = true -> NextDurations n e = (repeat 0 n, e).
Proof.
  intros Hi Hm. induction n as [|n IH]; [reflexivity|].
  rewrite NextDurations_S, (zero_interval_fixed e Hi Hm). cbn [snd].
  rewrite IH, Hi. reflexivity.
Qed.

(** A run of [Retry] on such a timer, from any turn of the loop: every
    sleep it adds is a sleep of 0. *)
Lemma run_zero_interval (env : Env) (e : ExpTimer) (fuel : nat) :
  interval e = 0 -> is_finite (multiplier e) = true ->
  forall h, exists k,
    sleeps (snd (run fuel env h (ExpTimer_Retry e))) = sleeps h ++ repeat 0 k.
Proof.
  intros Hi Hm.
  assert (He : snd (NextDuration e) = e) by (rewrite zero_interval_fixed; auto).
  induction fuel as [fuel IH] using lt_wf_ind. intros h.
  destruct (run_cases env h e fuel) as [l Hrun Hl | err Hr Hrun | x Hr Hd Hrun | x n Hn Hr Hd Hrun];
    rewrite Hrun; cbn [snd].
  - rewrite sleeps_app.
    destruct Hl as [-> | [[r ->] | [(x & b & ->) | [(x & c & ->) | (x & ->)]]]];
      try (exists 0%nat; reflexivity).
    exists 1%nat. rewrite Hi. reflexivity.
  - exists 0%nat. rewrite sleeps_app. reflexivity.
  - exists 0%nat. rewrite sleeps_app. reflexivity.
  - rewrite He, Hi.
    destruct (IH n ltac:(lia) (h ++ [EvCall (true, x); EvDone false; EvSleep 0])) as [k Hk].
    exists (S k). rewrite Hk, sleeps_app, <- app_assoc. reflexivity.
Qed.

(** X4: a timer whose interval is 0 never backs off: whatever finite
    multiplier it has, every call of [NextDuration] returns 0 and leaves the
    timer as it is, and [Retry] on it sleeps 0 between attempts, whatever
    the operation and the context do. *)
Theorem NextDuration_zero_interval_stays (e : ExpTimer) (n : nat) (env : Env) (fuel : nat) :
  interval e = 0 -> is_finite (multiplier e) = true ->
  NextDuration e = (0, e)
  /\ NextDurations n e = (repeat 0 n, e)
  /\ Forall (fun d => d = 0) (sleeps (snd (run fuel env [] (ExpTimer_Retry e)))).
Proof.
  intros Hi Hm.
  split; [apply zero_interval_fixed; assumption|].
  split; [apply zero_interval_forever; assumption|].
  destruct (run_zero_interval env e fuel Hi Hm []) as [k Hk].
  rewrite Hk. cbn [sleeps app]. apply Forall_forall. intros d Hd.
  apply repeat_spec in Hd. exact Hd.
Qed.

(** [float64(i)] is a zero or a finite number for every [int64] [i]. *)
Lemma of_int_finite (i : Z) :
  Int64.in_range i = true -> is_finite (of_int i) = true.
Proof.
  intros Hr. unfold Int64.in_range, Int64.min_int, Int64.max_int in Hr.
  apply andb_prop in Hr. destruct Hr as [H1 H2]. apply Z.leb_le in H1, H2.
  unfold of_int. destruct i as [|p|p]; cbn [binary_normalize]; [reflexivity | |].
  - destruct (binary_round_int false p) as (mi & ei & -> & _); [lia | reflexivity].
  - destruct (binary_round_int true p) as (mi & ei & -> & _); [lia | reflexivity].
Qed.

(** X6: a multiplier of zero (of either sign) ends the backoff: the first
    call of [NextDuration] returns the interval it finds and leaves 0, and
    every later call returns 0. *)
Theorem NextDuration_zero_multiplier (e : ExpTimer) (s : bool) (n : nat) :
  Int64.in_range (interval e) = true ->
  multiplier e = S754_zero s ->
  NextDurations (S n) e = (interval e :: repeat 0 n, NewExpTimer 0 (S754_zero s)).
Proof.
  intros Hr Hm. rewrite NextDurations_S.
  assert (H1 : snd (NextDuration e) = NewExpTimer 0 (S754_zero s)).
  { unfold NextDuration, NewExpTimer. cbn [snd]. rewrite Hm. f_equal.
    pose proof (of_int_finite _ Hr) as Hf. unfold float64_of_Duration.
    destruct (of_int (interval e)) as [s0 | s0 | | s0 m0 e0]; try discriminate Hf; reflexivity. }
  rewrite H1, zero_interval_forever by reflexivity. reflexivity.
Qed.

(** Multiplying a normal number by [1] changes nothing. *)
Lemma mul_one (s : bool) (mi : positive) (ei : Z) :
  2 ^ 52 <= Zpos mi < 2 ^ 53 -> -52 <= ei <= 12 ->
  mul (S754_finite s mi ei) one = S754_finite s mi ei.
Proof.
  intros Hmi Hei. unfold mul, one. cbn [SFmul]. rewrite xorb_false_r.
  assert (Hp : Zpos (mi * 4503599627370496) = Zpos mi * 2 ^ 52) by (rewrite Pos2Z.inj_mul; reflexivity).
  rewrite (binary_round_aux_exact s (mi * 4503599627370496) (ei + -52) 52).
  - rewrite Hp, Z.div_mul by lia. cbn [Z.to_pos]. f_equal. lia.
  - lia.
  - apply digits2_pos_unique. rewrite Hp.
    change (2 ^ (53 + 52 - 1)) with (2 ^ 52 * 2 ^ 52).
    change (2 ^ (53 + 52)) with (2 ^ 53 * 2 ^ 52). lia.
  - exists (Zpos mi). exact Hp.
  - lia.
Qed.

Lemma one_interval_fixed (i : Duration) :
  trunc (float64_of_Duration i) = Some i ->
  Int64.in_range i = true ->
  NextDuration (NewExpTimer i one) = (i, NewExpTimer i one).
Proof.
  intros Hexact Hrange. unfold NextDuration, NewExpTimer. cbn [interval multiplier].
  f_equal. f_equal.
  assert (Hm : mul (float64_of_Duration i) one = float64_of_Duration i).
  { assert (Hb : - 2 ^ 63 <= i <= 2 ^ 63 - 1).
    { unfold Int64.in_range, Int64.min_int, Int64.max_int in Hrange.
      apply andb_prop in Hrange. destruct Hrange as [H1 H2].
      apply Z.leb_le in H1, H2. lia. }
    unfold float64_of_Duration, of_int.
    destruct i as [|p|p]; cbn [binary_normalize].
    - reflexivity.
    - destruct (binary_round_int false p) as (mi & ei & -> & Hmi & Hei & _); [lia|].
      apply mul_one; assumption.
    - destruct (binary_round_int true p) as (mi & ei & -> & Hmi & Hei & _); [lia|].
      apply mul_one; assumption. }
  unfold Duration_of_float64. rewrite Hm, Hexact, Hrange. reflexivity.
Qed.

(** X5: with multiplier 1 the backoff is constant: for every interval that
    [float64] holds exactly, each call of [NextDuration] returns that
    interval and leaves the timer as it is. *)
Theorem NextDuration_multiplier_one_constant (i : Duration) (n : nat) :
  trunc (float64_of_Duration i) = Some i ->
  Int64.in_range i = true ->
  NextDurations n (NewExpTimer i one) = (repeat i n, NewExpTimer i one).
Proof.
  intros Hexact Hrange. induction n as [|n IH]; [reflexivity|].
  rewrite NextDurations_S, (one_interval_fixed i Hexact Hrange). cbn [snd].
  rewrite IH. reflexivity.
Qed.

End DegenerateTimers.

(** ** The backoff over many calls *)

Section BackoffGrowth.

Context {arch : Arch}.

(** Integers of at most 53 digits, of either sign, survive [float64]. *)
Lemma int_round_trip_small (s : bool) (p : positive) :
  Zpos p < 2 ^ 53 ->
  trunc (binary_round prec emax s p 0) = Some (cond_Zopp s (Zpos p)).
Proof.
  intros Hp.
  destruct (binary_round_int s p) as (mi & ei & Hof & Hmi & Hei & Hsmall & Hneg); [lia|].
  rewrite Hof, trunc_finite. f_equal. f_equal.
  specialize (Hneg Hp). specialize (Hsmall Hneg). rewrite Hsmall.
  destruct (Z.ltb_spec ei 0) as [Hlt | Hge].
  - apply Z.div_mul. pose proof (Z.pow_pos_nonneg 2 (- ei)). lia.
  - replace ei with 0 by lia. simpl (- 0). rewrite Z.pow_0_r, !Z.mul_1_r. reflexivity.
Qed.

(** Shifting a mantissa left adds to its digits. *)
Lemma digits2_pos_shift (m p : positive) (e : Z) :
  0 <= e -> Zpos p = Zpos m * 2 ^ e ->
  Zpos (digits2_pos p) = Zpos (digits2_pos m) + e.
Proof.
  intros He Hp. pose proof (digits2_pos_bounds m) as [Hlo Hhi].
  assert (H2 : 0 < 2 ^ e) by (apply Z.pow_pos_nonneg; lia).
  apply digits2_pos_unique. rewrite Hp.
  replace (Zpos (digits2_pos m) + e - 1) with (Zpos (digits2_pos m) - 1 + e) by lia.
  rewrite !Z.pow_add_r by lia. split; nia.
Qed.

(** The integer part of a non-negative double is itself a double: it
    survives the conversion back to [float64]. *)
Lemma trunc_round_trip (m : positive) (e z : Z) :
  Zpos m < 2 ^ 53 ->
  trunc (S754_finite false m e) = Some z ->
  z < 2 ^ 64 ->
  trunc (of_int z) = Some z.
Proof.
  intros Hm Ht Hz. rewrite trunc_finite in Ht. cbn [cond_Zopp] in Ht.
  assert (Ht' : (if e <? 0 then Zpos m / 2 ^ (- e) else Zpos m * 2 ^ e) = z) by congruence.
  clear Ht.
  assert (Hz0 : 0 <= z).
  { rewrite <- Ht'. destruct (Z.ltb_spec e 0).
    - apply Z.div_pos; [lia | apply Z.pow_pos_nonneg; lia].
    - apply Z.mul_nonneg_nonneg; [lia | apply Z.pow_nonneg; lia]. }
  unfold of_int. destruct z as [|p|p]; [reflexivity | | lia]. cbn [binary_normalize].
  destruct (Z.ltb_spec (Zpos p) (2 ^ 53)) as [Hsmall | Hbig].
  { apply (int_round_trip_small false p Hsmall). }
  assert (He : 0 <= e /\ Zpos p = Zpos m * 2 ^ e).
  { revert Ht'. destruct (Z.ltb_spec e 0) as [Hneg | Hpos]; intros Ht'.
    - assert (Zpos m / 2 ^ (- e) <= Zpos m).
      { apply Z.div_le_upper_bound; [apply Z.pow_pos_nonneg; lia|].
        pose proof (Z.pow_pos_nonneg 2 (- e)). nia. }
      lia.
    - split; [assumption | congruence]. }
  destruct He as [He Hp].
  pose proof (digits2_pos_shift m p e He Hp) as Hd.
  pose proof (digits2_pos_bounds m) as [Hlo Hhi].
  pose proof (digits2_pos_bounds p) as [Hplo Hphi].
  set (dm := Zpos (digits2_pos m)) in *. set (d := Zpos (digits2_pos p)) in *.
  assert (Hdm : dm <= 53).
  { destruct (Z.leb_spec dm 53); [assumption|].
    assert (2 ^ 53 <= 2 ^ (dm - 1)) by (apply Z.pow_le_mono_r; lia). lia. }
  assert (Hd54 : 54 <= d).
  { destruct (Z.leb_spec 54 d); [assumption|].
    assert (2 ^ d <= 2 ^ 53) by (apply Z.pow_le_mono_r; lia). lia. }
  assert (Hd64 : d <= 64).
  { destruct (Z.leb_spec d 64); [assumption|].
    assert (2 ^ 64 <= 2 ^ (d - 1)) by (apply Z.pow_le_mono_r; lia). lia. }
  assert (H2n : 0 < 2 ^ (d - 53)) by (apply Z.pow_pos_nonneg; lia).
  assert (Hdiv : (2 ^ (d - 53) | Zpos p)).
  { exists (Zpos m * 2 ^ (e - (d - 53))). rewrite Hp, <- Z.mul_assoc, <- Z.pow_add_r by lia.
    f_equal. f_equal. lia. }
  unfold binary_round.
  assert (Hf : fexp prec emax (Zpos (digits2_pos p) + 0) = d - 53).
  { unfold fexp, emin, prec, emax. fold d. lia. }
  rewrite Hf. unfold shl_align.
  destruct (d - 53 - 0) as [|k|k] eqn:Hk; try lia.
  rewrite (binary_round_aux_exact false p 0 (d - 53)); [| lia | fold d; lia | exact Hdiv | lia].
  rewrite trunc_finite. cbn [cond_Zopp].
  destruct (Z.ltb_spec (0 + (d - 53)) 0) as [Hneg | _]; [lia|].
  destruct Hdiv as [c Hc]. rewrite Hc.
  rewrite Z.div_mul by lia.
  assert (0 < c) by nia.
  rewrite Z2Pos.id by assumption. rewrite Z.add_0_l. reflexivity.
Qed.

Lemma product_digits (mi mm : positive) :
  2 ^ 52 <= Zpos mi < 2 ^ 53 -> 2 ^ 52 <= Zpos mm < 2 ^ 53 ->
  exists n, 52 <= n <= 53 /\ Zpos (digits2_pos (mi * mm)) = 53 + n.
Proof.
  intros Hmi Hmm.
  assert (HP : 2 ^ 104 <= Zpos (mi * mm) < 2 ^ 106).
  { rewrite Pos2Z.inj_mul.
    change (2 ^ 104) with (2 ^ 52 * 2 ^ 52). change (2 ^ 106) with (2 ^ 53 * 2 ^ 53).
    split; nia. }
  pose proof (digits2_pos_bounds (mi * mm)) as [Hlo Hhi].
  set (d := Zpos (digits2_pos (mi * mm))) in *.
  assert (104 < d).
  { destruct (Z.ltb_spec 104 d); [assumption|].
    assert (2 ^ d <= 2 ^ 104) by (apply Z.pow_le_mono_r; lia). lia. }
  assert (d - 1 < 106).
  { destruct (Z.ltb_spec (d - 1) 106); [assumption|].
    assert (2 ^ 106 <= 2 ^ (d - 1)) by (apply Z.pow_le_mono_r; lia). lia. }
  exists (d - 53). split; lia.
Qed.

(** The rounded product of two normal numbers has a 53-digit mantissa. *)
Lemma product_mantissa (mi mm m' : positive) (ei em e' : Z) :
  2 ^ 52 <= Zpos mi < 2 ^ 53 -> 2 ^ 52 <= Zpos mm < 2 ^ 53 ->
  -52 <= ei -> -52 <= em ->
  binary_round_aux prec emax false (Zpos (mi * mm)) (ei + em) loc_Exact
  = S754_finite false m' e' ->
  Zpos m' < 2 ^ 53.
Proof.
  intros Hmi Hmm Hei Hem Hfin.
  destruct (product_digits mi mm Hmi Hmm) as (n & Hn & Hd).
  destruct (binary_round_aux_normal false (mi * mm) (ei + em) n)
    as [[Hinf _] | (m'' & Hm'' & [[Hfin' _] | (Hfin' & _)])];
    [lia | exact Hd | lia | | |]; rewrite Hfin in *; congruence || (injection Hfin' as -> _; lia).
Qed.

(** One scaling inside the growing regime stays inside it and does not
    shrink the interval. *)
Lemma growing_step (e : ExpTimer) :
  growing e ->
  representable (mul (float64_of_Duration (interval e)) (multiplier e)) = true ->
  interval e <= interval (snd (NextDuration e)) /\ growing (snd (NextDuration e)).
Proof.
  intros ([Hi0 Himax] & Hexact & Hvalid & Hge) Hrep.
  unfold growing. cbn [NextDuration snd interval multiplier].
  pose proof (Duration_of_float64_trunc _ Hrep) as Ht.
  assert (Hin : Int64.in_range
                  (Duration_of_float64 (mul (float64_of_Duration (interval e)) (multiplier e)))
                = true).
  { unfold representable in Hrep. rewrite Ht in Hrep. exact Hrep. }
  remember (Duration_of_float64 (mul (float64_of_Duration (interval e)) (multiplier e)))
    as z eqn:Ez. clear Ez.
  assert (Hzmax : z <= Int64.max_int).
  { unfold Int64.in_range in Hin. apply andb_prop in Hin. destruct Hin as [_ H2].
    apply Z.leb_le in H2. exact H2. }
  assert (Hmain : interval e <= z /\ trunc (float64_of_Duration z) = Some z).
  { unfold float64_of_Duration in *. unfold of_int in Ht, Hrep, Hexact.
    destruct (interval e) as [|p|p]; [| |lia]; cbn [binary_normalize] in *.
    - destruct (ge_one_normal _ Hvalid Hge) as [Hm | (mm & em & Hm & _)];
        rewrite Hm in Ht, Hrep; [discriminate Hrep|].
      cbn in Ht. injection Ht as <-. split; [lia | reflexivity].
    - destruct (binary_round_int false p) as (mi & ei & Hof & Hmi & Hei & Hsmall & _).
      { unfold Int64.max_int in Himax. lia. }
      rewrite Hof in Ht, Hrep, Hexact.
      destruct (ge_one_normal _ Hvalid Hge) as [Hm | (mm & em & Hm & Hmm & Hem)];
        rewrite Hm in Ht, Hrep; [discriminate Hrep|].
      unfold mul in Ht, Hrep. cbn [SFmul xorb] in Ht, Hrep.
      destruct (product_lower mi mm ei em Hmi Hmm) as [Hinf | (m' & e' & Hfin & Hle & Hlow)];
        [lia | lia | rewrite Hinf in Hrep; discriminate Hrep |].
      pose proof (product_mantissa mi mm m' ei em e' Hmi Hmm ltac:(lia) Hem Hfin) as Hm'.
      rewrite Hfin in Ht.
      destruct (trunc_lower mi m' ei e' (Zpos p)) as (z' & Hz' & Hlez);
        [lia | exact Hexact | exact Hsmall | exact Hle | exact Hlow |].
      assert (z' = z) by congruence. subst z'.
      split; [exact Hlez|].
      apply (trunc_round_trip m' e' z Hm' Hz'). unfold Int64.max_int in Hzmax. lia. }
  destruct Hmain as [Hle Hrt].
  split; [exact Hle|]. repeat split; try assumption. lia.
Qed.

(** X7: inside the growing regime the backoff never shrinks, however many
    calls are made: as long as the scaled intervals fit [int64], the
    durations returned by successive calls of [NextDuration] are sorted,
    none is below the first, and the timer stays inside the regime. *)
Theorem NextDurations_sorted (e : ExpTimer) (n : nat) :
  growing e ->
  scaling_fits n e = true ->
  Sorted Z.le (fst (NextDurations n e))
  /\ Forall (fun d => interval e <= d) (fst (NextDurations n e))
  /\ interval e <= interval (snd (NextDurations n e))
  /\ growing (snd (NextDurations n e)).
Proof.
  revert e. induction n as [|n IH]; intros e Hg Hfit.
  - cbn [NextDurations fst snd].
    split; [constructor|]. split; [constructor|]. split; [apply Z.le_refl | exact Hg].
  - cbn [scaling_fits] in Hfit. apply andb_prop in Hfit. destruct Hfit as [Hrep Hfit].
    destruct (growing_step e Hg Hrep) as [Hle Hg'].
    destruct (IH _ Hg' Hfit) as (Hs & Hall & Hlast & Hgn).
    rewrite NextDurations_S. cbn [fst snd].
    split; [|split; [|split]].
    + constructor; [exact Hs|].
      destruct (fst (NextDurations n (snd (NextDuration e)))) as [|d ds] eqn:El;
        constructor. inversion Hall as [|? ? Hd Hds]; subst.
      exact (Z.le_trans _ _ _ Hle Hd).
    + constructor; [apply Z.le_refl|].
      eapply Forall_impl; [|exact Hall]. intros d Hd.
      exact (Z.le_trans _ _ _ Hle Hd).
    + lia.
    + exact Hgn.
Qed.

(** X10: the default timer stays inside [int64] for its first 58 scalings:
    the first 59 durations it hands out are strictly increasing, and the
    59th scaling no longer fits, so the 60th duration is left to the
    implementation. *)
Theorem default_backoff_horizon :
  growing DefaultExpTimer
  /\ scaling_fits 58 DefaultExpTimer = true
  /\ scaling_fits 59 DefaultExpTimer = false
  /\ List.length (fst (NextDurations 59 DefaultExpTimer)) = 59%nat
  /\ strictly_increasing (fst (NextDurations 59 DefaultExpTimer)) = true.
Proof.
  split.
  - unfold growing. split; [vm_compute; split; discriminate|].
    split; [reflexivity|]. split; reflexivity.
  - split; [vm_compute; reflexivity|]. split; [vm_compute; reflexivity|].
    split; vm_compute; reflexivity.
Qed.

End BackoffGrowth.

(** ** Calls of [Retry] one after another *)

Section RetryComposed.

Context {arch : Arch}.
Variable env : Env.

Lemma observe_bind_retryE {A B : Type} (t : itree retryE A) (k : A -> itree retryE B) :
  observe (ITree.bind t k)
  = observe (match observe t with
             | RetF r => k r
             | TauF t' => Tau (ITree.bind t' k)
             | VisF ev h => Vis ev (fun x => ITree.bind (h x) k)
             end).
Proof. reflexivity. Qed.

(** Running [t] and then [k]: out of fuel where [t] is, or [k] resumed from
    the history [t] left. *)
Lemma run_bind {A B : Type} (k : A -> itree retryE B) (fuel : nat) :
  forall (h : list Event) (t : itree retryE A),
    match fst (run fuel env h t) with
    | None => run fuel env h (ITree.bind t k) = (None, snd (run fuel env h t))
    | Some r => exists f', (f' <= fuel)%nat
                           /\ run fuel env h (ITree.bind t k)
                              = run f' env (snd (run fuel env h t)) (k r)
    end.
Proof.
  induction fuel as [|n IH]; intros h t; [reflexivity|].
  rewrite (run_S env n h t), (run_S env n h (ITree.bind t k)), observe_bind_retryE.
  destruct (observe t) as [r | t' | X ev k0]; cbn [fst snd].
  - exists (S n). split; [lia|]. rewrite run_S. reflexivity.
  - cbn [observe _observe]. specialize (IH h t').
    destruct (fst (run n env h t')) as [r|].
    + destruct IH as (f' & Hf & IH). exists f'. split; [lia | exact IH].
    + exact IH.
  - cbn [observe _observe]. destruct (answer env h ev) as [x evt].
    specialize (IH (h ++ [evt]) (k0 x)).
    destruct (fst (run n env (h ++ [evt]) (k0 x))) as [r|].
    + destruct IH as (f' & Hf & IH). exists f'. split; [lia | exact IH].
    + exact IH.
Qed.

Lemma NextDurations_add (n m : nat) (e : ExpTimer) :
  NextDurations (n + m) e
  = (fst (NextDurations n e) ++ fst (NextDurations m (snd (NextDurations n e))),
     snd (NextDurations m (snd (NextDurations n e)))).
Proof.
  revert e. induction n as [|n IH]; intros e.
  - cbn [Nat.add NextDurations fst snd app]. destruct (NextDurations m e); reflexivity.
  - cbn [Nat.add]. rewrite !NextDurations_S, IH. reflexivity.
Qed.

(** From any turn of the loop: what was slept, and the timer left behind. *)
Lemma run_sleeps_timer (fuel : nat) :
  forall (h : list Event) (e : ExpTimer),
  exists n,
    sleeps (snd (run fuel env h (ExpTimer_Retry e))) = sleeps h ++ fst (NextDurations n e)
    /\ forall e' err, fst (run fuel env h (ExpTimer_Retry e)) = Some (e', err) ->
                      e' = snd (NextDurations n e).
Proof.
  induction fuel as [fuel IH] using lt_wf_ind. intros h e.
  destruct (run_cases env h e fuel) as [l Hrun Hl | err Hr Hrun | x Hr Hd Hrun | x n Hn Hr Hd Hrun];
    rewrite Hrun; cbn [fst snd].
  - rewrite sleeps_app.
    destruct Hl as [-> | [[r ->] | [(x & b & ->) | [(x & c & ->) | (x & ->)]]]];
      try (exists 0%nat; split; [reflexivity | discriminate]).
    exists 1%nat. split; [reflexivity | discriminate].
  - exists 0%nat. rewrite sleeps_app. split; [reflexivity|]. intros e' err' [= <- _]. reflexivity.
  - exists 0%nat. rewrite sleeps_app. split; [reflexivity|]. intros e' err' [= <- _]. reflexivity.
  - destruct (IH n ltac:(lia) (h ++ [EvCall (true, x); EvDone false; EvSleep (interval e)])
                (snd (NextDuration e))) as (k & Hk & Hres).
    exists (S k). rewrite Hk, sleeps_app, NextDurations_S, <- app_assoc.
    split; [reflexivity | exact Hres].
Qed.

(** X8: a timer is not reset between calls of [Retry]: when [e.Retry] is
    called twice on the same timer, the sleeps of the two calls together are
    the first values of [NextDuration] for the timer as it was before the
    first call, so the second call goes on where the first stopped. *)
Theorem Retry_twice_continues_backoff (e : ExpTimer) (fuel : nat) :
  exists n, sleeps (snd (run fuel env [] (Retry_twice e))) = fst (NextDurations n e).
Proof.
  unfold Retry_twice.
  pose proof (run_bind
                (fun r : ExpTimer * error =>
                   let (e1, err1) := r in
                   '(e2, err2) <- ExpTimer_Retry e1 ;; Ret (e2, (err1, err2)))
                fuel [] (ExpTimer_Retry e)) as H1.
  destruct (run_sleeps_timer fuel [] e) as (n1 & Hs1 & Ht1).
  destruct (fst (run fuel env [] (ExpTimer_Retry e))) as [[e1 err1]|] eqn:E1.
  - destruct H1 as (f1 & _ & H1). rewrite H1. clear H1.
    rewrite (Ht1 e1 err1 eq_refl).
    set (h1 := snd (run fuel env [] (ExpTimer_Retry e))) in *.
    set (e1' := snd (NextDurations n1 e)).
    pose proof (run_bind
                  (fun r : ExpTimer * error => let (e2, err2) := r in Ret (e2, (err1, err2)))
                  f1 h1 (ExpTimer_Retry e1')) as H2.
    destruct (run_sleeps_timer f1 h1 e1') as (n2 & Hs2 & _).
    assert (Hall : sleeps (snd (run f1 env h1 (ExpTimer_Retry e1')))
                   = fst (NextDurations (n1 + n2) e)).
    { rewrite Hs2, Hs1, NextDurations_add. reflexivity. }
    destruct (fst (run f1 env h1 (ExpTimer_Retry e1'))) as [[e2 err2]|].
    + destruct H2 as (f2 & _ & H2). exists (n1 + n2)%nat. rewrite H2, <- Hall.
      destruct f2; reflexivity.
    + exists (n1 + n2)%nat. rewrite H2. exact Hall.
  - exists n1. rewrite H1. exact Hs1.
Qed.

Lemma NextDurations_length (n : nat) (e : ExpTimer) :
  List.length (fst (NextDurations n e)) = n.
Proof.
  revert e. induction n as [|n IH]; intros e; [reflexivity|].
  rewrite NextDurations_S. cbn [fst List.length]. rewrite IH. reflexivity.
Qed.

(** A run only ever adds to the history. *)
Lemma run_extends {R : Type} (fuel : nat) :
  forall (h : list Event) (t : itree retryE R),
  exists l, snd (run fuel env h t) = h ++ l.
Proof.
  induction fuel as [|n IH]; intros h t.
  - exists []. rewrite app_nil_r. reflexivity.
  - rewrite run_S. destruct (observe t) as [r | t' | X ev k].
    + exists []. rewrite app_nil_r. reflexivity.
    + apply IH.
    + destruct (answer env h ev) as [x evt].
      destruct (IH (h ++ [evt]) (k x)) as [l Hl].
      exists ([evt] ++ l). rewrite Hl, <- app_assoc. reflexivity.
Qed.

(** The package-level [Retry] from any history: what it sleeps is the
    default timer's sequence from its start. *)
Lemma run_Retry_sleeps (fuel : nat) (h : list Event) :
  exists n,
    sleeps (snd (run fuel env h Retry)) = sleeps h ++ fst (NextDurations n DefaultExpTimer).
Proof.
  unfold Retry. rewrite run_map. cbn [snd].
  destruct (run_sleeps_timer fuel h DefaultExpTimer) as (n & Hn & _). eauto.
Qed.

(** X9: the package-level [Retry] starts afresh every time.  When it is
    called twice and the first call has returned, what follows is a run of
    [Retry] from the history the first call left, and the sleeps of that
    second call are the default timer's sequence from its start again: its
    first sleep is the default initial interval, however often the first
    call slept. *)
Theorem Retry_then_Retry_restarts (fuel : nat) (err1 : error) :
  fst (run fuel env [] Retry) = Some err1 ->
  exists f2 tr2,
    snd (run fuel env [] Retry_then_Retry) = snd (run fuel env [] Retry) ++ tr2
    /\ run f2 env (snd (run fuel env [] Retry)) Retry
       = (option_map snd (fst (run fuel env [] Retry_then_Retry)),
          snd (run fuel env [] Retry) ++ tr2)
    /\ sleeps (snd (run fuel env [] Retry))
       = fst (NextDurations (List.length (sleeps (snd (run fuel env [] Retry))))
                            DefaultExpTimer)
    /\ sleeps tr2 = fst (NextDurations (List.length (sleeps tr2)) DefaultExpTimer)
    /\ (forall d rest, sleeps tr2 = d :: rest -> d = DefaultInitialInterval).
Proof.
  intros H1.
  pose proof (run_bind (fun err1 : error => err2 <- Retry ;; Ret (err1, err2))
                fuel [] Retry) as Hb.
  rewrite H1 in Hb. destruct Hb as (f2 & _ & Hb).
  set (h1 := snd (run fuel env [] Retry)) in *.
  change (run fuel env [] Retry_then_Retry
          = run f2 env h1 (ITree.map (pair err1) Retry)) in Hb.
  rewrite run_map in Hb.
  destruct (run_extends f2 h1 Retry) as [tr2 Htr2].
  destruct (run_Retry_sleeps f2 h1) as [n2 Hs2].
  rewrite Htr2, sleeps_app in Hs2. apply app_inv_head in Hs2.
  destruct (run_Retry_sleeps fuel []) as [n1 Hs1]. fold h1 in Hs1. cbn [sleeps app] in Hs1.
  exists f2, tr2. rewrite Hb. cbn [fst snd]. split; [exact Htr2|]. split.
  - rewrite <- Htr2. destruct (run f2 env h1 Retry) as [[err2|] tr]; reflexivity.
  - split; [rewrite Hs1 at 1; rewrite Hs1, NextDurations_length; reflexivity|].
    split; [rewrite Hs2 at 1; rewrite Hs2, NextDurations_length; reflexivity|].
    intros d rest Hd. rewrite Hd in Hs2.
    destruct n2 as [|n2]; [discriminate Hs2|].
    rewrite NextDurations_S in Hs2. cbn [fst] in Hs2. injection Hs2 as -> _. reflexivity.
Qed.

(** X11: [Retry] advances the timer exactly once per sleep: when it returns,
    the timer it leaves is the one it was given after as many calls of
    [NextDuration] as there were sleeps, and the sleeps are the values those
    calls returned. *)
Theorem Retry_advances_timer_once_per_sleep
    (e e' : ExpTimer) (err : error) (fuel : nat) :
  fst (run fuel env [] (ExpTimer_Retry e)) = Some (e', err) ->
  e' = snd (NextDurations
              (List.length (sleeps (snd (run fuel env [] (ExpTimer_Retry e))))) e)
  /\ sleeps (snd (run fuel env [] (ExpTimer_Retry e)))
     = fst (NextDurations
              (List.length (sleeps (snd (run fuel env [] (ExpTimer_Retry e))))) e).
Proof.
  intros Hres.
  destruct (run_sleeps_timer fuel [] e) as (n & Hs & Ht).
  cbn [sleeps app] in Hs.
  assert (Hn : List.length (sleeps (snd (run fuel env [] (ExpTimer_Retry e)))) = n)
    by (rewrite Hs; apply NextDurations_length).
  rewrite Hn. split; [apply (Ht e' err Hres) | exact Hs].
Qed.

End RetryComposed.

(** Two calls, each retrying once: the package-level [Retry] sleeps 0.5 s in
    both, where one timer used twice goes on to 0.75 s. *)
Example two_calls_each_retrying_once :
  sleeps (snd (run 20 env_retry_every_other [] (@Retry_then_Retry amd64)))
  = [500000000; 500000000]
  /\ sleeps (snd (run 20 env_retry_every_other [] (@Retry_twice amd64 DefaultExpTimer)))
     = [500000000; 750000000].
Proof. split; vm_compute; reflexivity. Qed.

(** ** The statements at work on concrete runs *)

(** Three retries on amd64 with the default timer: four calls, three sleeps
    of 0.5 s, 0.75 s and 1.125 s. *)
Lemma Retry_stops_after_N_retries_witness :
  exists tr,
    run 14 (env_retry_then_stop 3 sample_error) [] (@ExpTimer_Retry amd64 DefaultExpTimer)
    = (Some (snd (@NextDurations amd64 3 DefaultExpTimer), sample_error), tr)
    /\ calls tr = 4%nat
    /\ sleeps tr = fst (@NextDurations amd64 3 DefaultExpTimer)
    /\ List.length (sleeps tr) = 3%nat
    /\ schedule tr = attempts_with_waits (fst (@NextDurations amd64 3 DefaultExpTimer)).
Proof.
  apply (@Retry_stops_after_N_retries amd64 3 (env_retry_then_stop 3 sample_error)
           DefaultExpTimer sample_error).
  - intros h Hh. simpl. apply Nat.ltb_lt in Hh. rewrite Hh. reflexivity.
  - intros h Hh. simpl. rewrite Hh. reflexivity.
  - intros h. reflexivity.
  - simpl. lia.
Defined.

Lemma Retry_cancelled_returns_context_error_witness :
  run 4 (env_cancelled (true, nil)) [] (@ExpTimer_Retry amd64 DefaultExpTimer)
  = (Some (DefaultExpTimer, Some context_Canceled),
     [EvCall (true, nil); EvDone true; EvErr (Some context_Canceled)])
  /\ sleeps (snd (run 4 (env_cancelled (true, nil)) [] (@ExpTimer_Retry amd64 DefaultExpTimer)))
     = []
  /\ calls (snd (run 4 (env_cancelled (true, nil)) [] (@ExpTimer_Retry amd64 DefaultExpTimer)))
     = 1%nat.
Proof.
  apply (@Retry_cancelled_returns_context_error amd64 (env_cancelled (true, nil)) []
           DefaultExpTimer nil 4).
  - reflexivity.
  - reflexivity.
  - lia.
Defined.

Lemma Retry_returns_operation_error_witness :
  run 2 (env_cancelled (false, sample_error)) [] (@ExpTimer_Retry amd64 DefaultExpTimer)
  = (Some (DefaultExpTimer, sample_error), [EvCall (false, sample_error)]).
Proof.
  apply (@Retry_returns_operation_error amd64 (env_cancelled (false, sample_error)) []
           DefaultExpTimer sample_error 2).
  - reflexivity.
  - lia.
Defined.

Lemma Retry_calls_operation_before_context_witness :
  (exists l, snd (run 2 (env_cancelled (false, sample_error)) []
                      (@ExpTimer_Retry amd64 DefaultExpTimer))
             = EvCall (false, sample_error) :: l)
  /\ (1 <= calls (snd (run 2 (env_cancelled (false, sample_error)) []
                           (@ExpTimer_Retry amd64 DefaultExpTimer))))%nat
  /\ (forall err, (false, sample_error) = (false, err) ->
        run 2 (env_cancelled (false, sample_error)) [] (@ExpTimer_Retry amd64 DefaultExpTimer)
        = (Some (DefaultExpTimer, err), [EvCall (false, err)])).
Proof.
  apply (@Retry_calls_operation_before_context amd64 (env_cancelled (false, sample_error))
           DefaultExpTimer 2).
  - intros h. reflexivity.
  - lia.
Defined.

Lemma Retry_never_gives_up_witness :
  fst (run 100 env_always_retry [] (@ExpTimer_Retry amd64 DefaultExpTimer)) = None
  /\ calls (snd (run (4 * 5) env_always_retry [] (@ExpTimer_Retry amd64 DefaultExpTimer)))
     = 5%nat.
Proof.
  destruct (@Retry_never_gives_up amd64 env_always_retry DefaultExpTimer) as [H1 H2].
  - intros h. reflexivity.
  - intros h. reflexivity.
  - split; [apply H1 | apply H2].
Defined.

Lemma small_interval_exact_witness :
  0 <= DefaultInitialInterval <= 2 ^ 53
  /\ trunc (float64_of_Duration DefaultInitialInterval) = Some DefaultInitialInterval.
Proof.
  split; [vm_compute; split; discriminate|].
  apply (small_interval_exact DefaultInitialInterval).
  vm_compute. split; discriminate.
Defined.

(** The default timer on amd64: 500 ms grows to 750 ms. *)
Lemma NextDuration_nondecreasing_witness :
  0 <= interval DefaultExpTimer <= Int64.max_int
  /\ leb one (multiplier DefaultExpTimer) = true
  /\ interval DefaultExpTimer <= interval (snd (@NextDuration amd64 DefaultExpTimer)).
Proof.
  split; [vm_compute; split; discriminate|]. split; [reflexivity|].
  apply (@NextDuration_nondecreasing amd64 DefaultExpTimer).
  - vm_compute. split; discriminate.
  - reflexivity.
  - reflexivity.
  - reflexivity.
  - reflexivity.
Defined.

Lemma NextDuration_zero_interval_stays_witness :
  @NextDuration amd64 (NewExpTimer 0 DefaultMultiplier) = (0, NewExpTimer 0 DefaultMultiplier)
  /\ @NextDurations amd64 4 (NewExpTimer 0 DefaultMultiplier)
     = (repeat 0 4, NewExpTimer 0 DefaultMultiplier)
  /\ Forall (fun d => d = 0)
       (sleeps (snd (run 14 (env_retry_then_stop 3 nil) []
                         (@ExpTimer_Retry amd64 (NewExpTimer 0 DefaultMultiplier))))).
Proof.
  apply (@NextDuration_zero_interval_stays amd64 (NewExpTimer 0 DefaultMultiplier) 4
           (env_retry_then_stop 3 nil) 14).
  - reflexivity.
  - reflexivity.
Defined.

Lemma NextDuration_zero_multiplier_witness :
  @NextDurations amd64 4 (NewExpTimer Second (S754_zero false))
  = (Second :: repeat 0 3, NewExpTimer 0 (S754_zero false)).
Proof.
  apply (@NextDuration_zero_multiplier amd64 (NewExpTimer Second (S754_zero false)) false 3).
  - reflexivity.
  - reflexivity.
Defined.

Lemma NextDuration_multiplier_one_constant_witness :
  @NextDurations amd64 4 (NewExpTimer Second one) = (repeat Second 4, NewExpTimer Second one).
Proof.
  apply (@NextDuration_multiplier_one_constant amd64 Second 4).
  - reflexivity.
  - reflexivity.
Defined.

Lemma NextDurations_sorted_witness :
  Sorted Z.le (fst (@NextDurations amd64 10 DefaultExpTimer))
  /\ Forall (fun d => interval DefaultExpTimer <= d) (fst (@NextDurations amd64 10 DefaultExpTimer))
  /\ interval DefaultExpTimer <= interval (snd (@NextDurations amd64 10 DefaultExpTimer))
  /\ growing (snd (@NextDurations amd64 10 DefaultExpTimer)).
Proof.
  apply (@NextDurations_sorted amd64 DefaultExpTimer 10).
  - unfold growing. split; [vm_compute; split; discriminate|].
    split; [reflexivity|]. split; reflexivity.
  - vm_compute. reflexivity.
Defined.

Lemma Retry_advances_timer_once_per_sleep_witness :
  snd (@NextDurations amd64 3 DefaultExpTimer)
  = snd (@NextDurations amd64
           (List.length (sleeps (snd (run 14 (env_retry_then_stop 3 nil) []
                                          (@ExpTimer_Retry amd64 DefaultExpTimer)))))
           DefaultExpTimer)
  /\ sleeps (snd (run 14 (env_retry_then_stop 3 nil) [] (@ExpTimer_Retry amd64 DefaultExpTimer)))
     = fst (@NextDurations amd64
              (List.length (sleeps (snd (run 14 (env_retry_then_stop 3 nil) []
                                             (@ExpTimer_Retry amd64 DefaultExpTimer)))))
              DefaultExpTimer).
Proof.
  apply (@Retry_advances_timer_once_per_sleep amd64 (env_retry_then_stop 3 nil)
           DefaultExpTimer (snd (@NextDurations amd64 3 DefaultExpTimer)) nil 14).
  vm_compute. reflexivity.
Defined.

Lemma Retry_then_Retry_restarts_witness :
  exists f2 tr2,
    snd (run 20 env_retry_every_other [] (@Retry_then_Retry amd64))
    = snd (run 20 env_retry_every_other [] (@Retry amd64)) ++ tr2
    /\ run f2 env_retry_every_other (snd (run 20 env_retry_every_other [] (@Retry amd64)))
            (@Retry amd64)
       = (option_map snd (fst (run 20 env_retry_every_other [] (@Retry_then_Retry amd64))),
          snd (run 20 env_retry_every_other [] (@Retry amd64)) ++ tr2)
    /\ sleeps (snd (run 20 env_retry_every_other [] (@Retry amd64)))
       = fst (@NextDurations amd64
                (List.length (sleeps (snd (run 20 env_retry_every_other [] (@Retry amd64)))))
                DefaultExpTimer)
    /\ sleeps tr2 = fst (@NextDurations amd64 (List.length (sleeps tr2)) DefaultExpTimer)
    /\ (forall d rest, sleeps tr2 = d :: rest -> d = DefaultInitialInterval).
Proof.
  apply (@Retry_then_Retry_restarts amd64 env_retry_every_other 20 nil).
  vm_compute. reflexivity.
Defined.
